(** * The conditional-tokens contract wrapper, embedded from
    [packages/valory/contracts/conditional_tokens/contract.py].

    Python integers are unbounded, so they are [Z]; [bytes] are lists of
    [byte]; [str] is [string]; a [dict] keyed by strings is a [gmap string _].
    Calls into the chain client (web3, the [LedgerApi], the contract
    instance) are effects: they are answered by a [LedgerApi] record and
    written to a trace, and they may return, raise or never come back. *)

From Stdlib Require Import ZArith String Ascii Strings.Byte List Lia.
From stdpp Require Import base list gmap strings pretty numbers.

Open Scope Z_scope.

(** ** Python values used by the module *)

Abbreviation bytes := (list byte).

(** The exceptions the module names, and the ones its callees raise. *)
Inductive exn : Type :=
| Urllib3ReadTimeoutError   (* urllib3.exceptions.ReadTimeoutError *)
| RequestsReadTimeoutError  (* requests.exceptions.ReadTimeout *)
| TimeoutError              (* builtins.TimeoutError *)
| FuturesTimeoutError       (* concurrent.futures.TimeoutError, where it is a class of its own *)
| ValueError
| TypeError
| NotImplementedError
| ChainError (msg : string). (* anything else the chain client raises *)

(** What a call does: it returns a value, raises, or never comes back. *)
Inductive outcome (A : Type) : Type :=
| Returns (a : A)
| Raises (e : exn)
| Diverges.
Arguments Returns {A} a.
Arguments Raises {A} e.
Arguments Diverges {A}.

(** [Any], as far as [isinstance(data, str)] and [is None] tell values apart. *)
Inductive pyval (A : Type) : Type :=
| PyNone
| PyStr (s : string)
| PyObj (a : A).
Arguments PyNone {A}.
Arguments PyStr {A} s.
Arguments PyObj {A} a.

(** Positional arguments handed to [solidity_keccak] and [encodeABI]. *)
Inductive pyarg : Type :=
| ArgStr (s : string)
| ArgBytes (b : bytes)
| ArgInt (n : Z)
| ArgInts (l : list Z).

(** [str(x)] / [f"{x}"] for the values the module interpolates in messages. *)
Class PyStrOf (T : Type) := py_str : T → string.
Global Instance PyStrOf_Z : PyStrOf Z := λ z, pretty z.

(** ** Byte helpers: [bytes.hex], [bytes.fromhex], [int.from_bytes(_, "big")] *)

Definition hex_char (n : N) : ascii :=
  if (n <? 10)%N then ascii_of_N (48 + n) else ascii_of_N (87 + n).

Definition hex_of_byte (b : byte) : string :=
  let n := Byte.to_N b in
  String (hex_char (n / 16)) (String (hex_char (n mod 16)) EmptyString).

Definition bytes_hex (b : bytes) : string :=
  String.concat "" (hex_of_byte <$> b).

(** Py_ISSPACE: blank, \t, \n, \v, \f, \r. *)
Definition is_space (c : ascii) : bool :=
  let n := N_of_ascii c in
  (n =? 32)%N || ((9 <=? n)%N && (n <=? 13)%N).

Definition hex_digit_value (c : ascii) : option N :=
  let n := N_of_ascii c in
  if (48 <=? n)%N && (n <=? 57)%N then Some (n - 48)%N
  else if (97 <=? n)%N && (n <=? 102)%N then Some (n - 87)%N
  else if (65 <=? n)%N && (n <=? 70)%N then Some (n - 55)%N
  else None.

Definition byte_of_nibbles (hi lo : N) : byte :=
  byte_of_ascii (ascii_of_N (16 * hi + lo)).

(** [bytes.fromhex]: whitespace between pairs is skipped, every byte is two
    adjacent hex digits, anything else is a [ValueError]. *)
Fixpoint bytes_fromhex (s : string) : outcome bytes :=
  match s with
  | EmptyString => Returns []
  | String c rest =>
      if is_space c then bytes_fromhex rest
      else
        match hex_digit_value c, rest with
        | Some hi, String d rest' =>
            match hex_digit_value d with
            | Some lo =>
                match bytes_fromhex rest' with
                | Returns bs => Returns (byte_of_nibbles hi lo :: bs)
                | other => other
                end
            | None => Raises ValueError
            end
        | _, _ => Raises ValueError
        end
  end.

(** [s[2:]] *)
Definition str_from_2 (s : string) : string :=
  match s with
  | String _ (String _ rest) => rest
  | _ => EmptyString
  end.

Definition int_from_bytes_big (b : bytes) : Z :=
  fold_left (λ acc x, acc * 256 + Z.of_N (Byte.to_N x)) b 0.

(** ** The chain client and the trace of calls made to it *)

Record contract_instance := { instance_address : string }.

(** A decoded [PayoutRedemption] log entry, as far as [check_redeemed] reads
    it: [entry.get("args", {})], then [args.get("conditionId", None)] and
    [args.get("payout", 0)]. A missing key is [None]. *)
Inductive condition_key : Type :=
| CidBytes (b : bytes)    (* a [bytes] object *)
| CidOther (s : string).  (* already a string *)

Record event_args := {
  conditionId : option condition_key;
  payout : option Z;
}.

Record log_entry := { args : option event_args }.

(** The criteria put on the [PayoutRedemption] filter before it is deployed. *)
Record payout_filter := {
  f_redeemer : string;
  f_collateralToken : list string;
  f_parentCollectionId : list bytes;
  f_conditionId : list bytes;
  f_indexSets : list (list Z);
  f_fromBlock : Z;
  f_toBlock : Z;
}.

(** The collaborators: [cls.get_instance], [ledger_api.api.*] and the
    contract instance's functions. Each answers a call with an [outcome]. *)
Record LedgerApi := {
  get_instance : string → outcome contract_instance;
  to_checksum_address : string → outcome string;
  solidity_keccak : list string → list pyarg → outcome bytes;
  hexbytes_hex : bytes → string;  (* [HexBytes.hex] of the digest *)
  getCollectionId : contract_instance → string → string → Z → outcome bytes;
  balanceOf : contract_instance → string → Z → outcome Z;
  payoutDenominator : contract_instance → bytes → outcome Z;
  encodeABI : contract_instance → string → list pyarg → outcome string;
  get_all_entries : contract_instance → payout_filter → outcome (list log_entry);
}.

Inductive event : Type :=
| EvGetInstance (contract_address : string)
| EvToChecksum (address : string)
| EvSolidityKeccak (abi_types : list string) (values : list pyarg)
| EvGetCollectionId (parent_collection_id condition_id : string) (index_set : Z)
| EvBalanceOf (owner : string) (position_id : Z)
| EvPayoutDenominator (condition_id : bytes)
| EvEncodeABI (fn_name : string) (fn_args : list pyarg)
| EvGetAllEntries (criteria : payout_filter)
| EvSubmit.  (* [executor.submit(func)] *)

(** Computations that call the client: the trace so far goes in, the
    outcome and the extended trace come out. *)
Definition M (A : Type) : Type := list event → outcome A * list event.

Global Instance M_ret : MRet M := λ A a t, (Returns a, t).

Global Instance M_bind : MBind M := λ A B f m t,
  match m t with
  | (Returns a, t') => f a t'
  | (Raises e, t') => (Raises e, t')
  | (Diverges, t') => (Diverges, t')
  end.

Definition raise {A} (e : exn) : M A := λ t, (Raises e, t).

(** One call to the client: it is recorded, then answered. *)
Definition call {A} (ev : event) (answer : outcome A) : M A :=
  λ t, (answer, t ++ [ev]).

(** [try: body  except <classes>: handler] *)
Definition try_except {A} (body : M A) (caught : exn → bool) (handler : M A) : M A :=
  λ t,
    match body t with
    | (Raises e, t') => if caught e then handler t' else (Raises e, t')
    | done => done
    end.

Section Calls.
Context (api : LedgerApi).

Definition call_get_instance (a : string) : M contract_instance :=
    call (EvGetInstance a) (get_instance api a).
Definition call_to_checksum (a : string) : M string :=
    call (EvToChecksum a) (to_checksum_address api a).
Definition call_solidity_keccak (tys : list string) (vs : list pyarg) : M bytes :=
    call (EvSolidityKeccak tys vs) (solidity_keccak api tys vs).
Definition call_getCollectionId (i : contract_instance) (parent cond : string) (ix : Z) : M bytes :=
    call (EvGetCollectionId parent cond ix) (getCollectionId api i parent cond ix).
Definition call_balanceOf (i : contract_instance) (owner : string) (pos : Z) : M Z :=
    call (EvBalanceOf owner pos) (balanceOf api i owner pos).
Definition call_payoutDenominator (i : contract_instance) (cond : bytes) : M Z :=
    call (EvPayoutDenominator cond) (payoutDenominator api i cond).
Definition call_encodeABI (i : contract_instance) (fn : string) (a : list pyarg) : M string :=
    call (EvEncodeABI fn a) (encodeABI api i fn a).
Definition call_get_all_entries (i : contract_instance) (f : payout_filter) : M (list log_entry) :=
    call (EvGetAllEntries f) (get_all_entries api i f).
End Calls.

(** ** JSON-like results *)

Inductive jval : Type :=
| JStr (s : string)
| JBool (b : bool)
| JInts (l : list Z)
| JPayouts (m : gmap string Z).

(** ** [get_partitions] *)

(** [list(map(lambda x: 1 << x, range(count)))]; [range(count)] is empty for
    [count <= 0]. *)
Definition get_partitions (count : Z) : list Z :=
  (λ x, Z.shiftl 1 x) <$> seqZ 0 count.

(** ** [execute_with_timeout] *)

(** The interpreter the module runs on. From Python 3.11 on,
    [concurrent.futures.TimeoutError] is the builtin [TimeoutError]; before,
    it is a class of its own, which [except TimeoutError] does not catch. *)
Record runtime := { futures_timeout_is_builtin : bool }.

Definition deadline_exn (rt : runtime) : exn :=
  if futures_timeout_is_builtin rt then TimeoutError else FuturesTimeoutError.

(** [future.result(timeout=timeout)]: the worker's value or exception when
    the worker is done by the deadline, the futures timeout otherwise. A
    worker that never finishes is never done by the deadline. *)
Definition future_result {A} (rt : runtime) (worker : outcome A) (done_by_deadline : bool)
  : outcome A :=
  match worker with
  | Diverges => Raises (deadline_exn rt)
  | finished => if done_by_deadline then finished else Raises (deadline_exn rt)
  end.

(** Leaving [with ThreadPoolExecutor(...) as executor:] calls
    [executor.shutdown(wait=True)], which joins the worker thread: the
    block's result reaches the caller once the worker has finished. *)
Definition executor_exit {A B} (worker : outcome A) (block : outcome B) : outcome B :=
  match worker with
  | Diverges => Diverges
  | _ => block
  end.

Definition catches_TimeoutError (e : exn) : bool :=
  match e with TimeoutError => true | _ => false end.

Definition timeout_err `{PyStrOf T} (timeout : T) : string :=
  "The RPC didn't respond in " +:+ py_str timeout +:+ ".".

(** [done_by_deadline] says whether the worker thread finishes [func]
    before [future.result] gives up; the scheduler and the network decide
    it, not the module. The result is the pair [(data, err)]. *)
Definition execute_with_timeout {A} `{PyStrOf T} (rt : runtime)
    (func : M (pyval A)) (done_by_deadline : bool) (timeout : T)
  : M (pyval A * option string) :=
  λ t,
    let '(worker, t') := func (t ++ [EvSubmit]) in
    let block :=
      match future_result rt worker done_by_deadline with
      | Raises e =>
          if catches_TimeoutError e
          then Returns (PyNone, Some (timeout_err timeout))
          else Raises e
      | Returns data =>
          match data with
          | PyStr s => Returns (PyNone, Some s)
          | _ => Returns (data, None)
          end
      | Diverges => Diverges
      end in
    (executor_exit worker block, t').

(** ** [check_redeemed] *)

Definition is_read_timeout (e : exn) : bool :=
  match e with
  | Urllib3ReadTimeoutError | RequestsReadTimeoutError => true
  | _ => false
  end.

Definition rpc_timed_out_msg (from_block to_block : Z) : string :=
  "The RPC timed out! This usually happens if the filtering is too wide. "
  +:+ "The service tried to filter from block " +:+ py_str from_block
  +:+ " to " +:+ py_str to_block +:+ ". "
  +:+ "If this issue persists, please try lowering the `EVENT_FILTERING_BATCH_SIZE`!".

(** The inner function [get_redeem_events]. Building the filter, putting
    the criteria on it, deploying it and reading all entries is one
    answer of the client, [get_all_entries]. *)
Definition get_redeem_events (api : LedgerApi) (contract_address redeemer : string)
    (from_block to_block : Z) (collateral_tokens : list string)
    (parent_collection_ids condition_ids : list bytes) (index_sets : list (list Z))
  : M (pyval (list log_entry)) :=
  contract_instance ← call_get_instance api contract_address;
  redeemer_checksummed ← call_to_checksum api redeemer;
  collateral_tokens_checksummed ← mapM (call_to_checksum api) collateral_tokens;
  try_except
    (redeemed ← call_get_all_entries api contract_instance
        {| f_redeemer := redeemer_checksummed;
           f_collateralToken := collateral_tokens_checksummed;
           f_parentCollectionId := parent_collection_ids;
           f_conditionId := condition_ids;
           f_indexSets := index_sets;
           f_fromBlock := from_block;
           f_toBlock := to_block |};
     mret (PyObj redeemed))
    is_read_timeout
    (mret (PyStr (rpc_timed_out_msg from_block to_block))).

(** The key a condition id is stored under: [condition_id.hex()] for
    [bytes], the object itself otherwise. *)
Definition payout_key (c : condition_key) : string :=
  match c with
  | CidBytes b => bytes_hex b
  | CidOther s => s
  end.

Definition no_args : event_args := {| conditionId := None; payout := None |}.

(** One turn of [for redeeming in redeemed]. *)
Definition record_redeeming (payouts : gmap string Z) (redeeming : log_entry)
  : gmap string Z :=
  let a := default no_args (args redeeming) in
  let condition_id := conditionId a in
  let p := default 0 (payout a) in
  match condition_id with
  | Some c => if bool_decide (p > 0) then <[payout_key c := p]> payouts else payouts
  | None => payouts
  end.

Definition fold_payouts (redeemed : list log_entry) : gmap string Z :=
  fold_left record_redeeming redeemed ∅.

Definition check_redeemed `{PyStrOf T} (rt : runtime) (api : LedgerApi)
    (contract_address redeemer : string) (from_block to_block : Z)
    (collateral_tokens : list string)
    (parent_collection_ids condition_ids : list bytes) (index_sets : list (list Z))
    (timeout : T) (done_by_deadline : bool)
  : M (gmap string jval) :=
  '(redeemed, err) ← execute_with_timeout rt
      (get_redeem_events api contract_address redeemer from_block to_block
         collateral_tokens parent_collection_ids condition_ids index_sets)
      done_by_deadline timeout;
  match err with
  | Some err => mret {[ "error" := JStr err ]}
  | None =>
      match redeemed with
      | PyObj redeemed => mret {[ "payouts" := JPayouts (fold_payouts redeemed) ]}
      | _ => raise TypeError  (* iterating a non-list; the executor never yields it *)
      end
  end.

(** ** [check_resolved] *)

Definition check_resolved (api : LedgerApi) (contract_address : string)
    (condition_id : bytes) : M (gmap string jval) :=
  contract_instance ← call_get_instance api contract_address;
  p ← call_payoutDenominator api contract_instance condition_id;
  if bool_decide (p = 0)
  then mret {[ "resolved" := JBool false ]}
  else mret {[ "resolved" := JBool true ]}.

(** ** [get_raw_transaction] *)

Definition get_raw_transaction (api : LedgerApi) (contract_address : string)
    (kwargs : gmap string pyarg) : M (gmap string jval) :=
  raise NotImplementedError.

(** ** [calculate_condition_id] *)

Definition calculate_condition_id (api : LedgerApi) (contract_address oracle_contract : string)
    (question_id : string) (outcome_slot_count : Z) : M (gmap string jval) :=
  oracle ← call_to_checksum api oracle_contract;
  question ← (λ t, (bytes_fromhex (str_from_2 question_id), t));
  digest ← call_solidity_keccak api ["address"; "bytes32"; "uint256"]
             [ArgStr oracle; ArgBytes question; ArgInt outcome_slot_count];
  mret {[ "condition_id" := JStr (hexbytes_hex api digest) ]}.

(** ** [get_user_holdings] *)

(** The body of [for i in cls.get_partitions(count=outcome_slot_count)],
    with the two lists it appends to. *)
Fixpoint holdings_loop (api : LedgerApi) (instance : contract_instance)
    (condition_id creator collateral_token market parent_collection_id : string)
    (partition : list Z) (holdings shares : list Z) : M (list Z * list Z) :=
  match partition with
  | [] => mret (holdings, shares)
  | i :: rest =>
      raw ← call_getCollectionId api instance parent_collection_id condition_id i;
      let collection_id := int_from_bytes_big raw in
      token ← call_to_checksum api collateral_token;
      digest ← call_solidity_keccak api ["address"; "uint256"]
                 [ArgStr token; ArgInt collection_id];
      let position_id := int_from_bytes_big digest in
      market_checksummed ← call_to_checksum api market;
      h ← call_balanceOf api instance market_checksummed position_id;
      creator_checksummed ← call_to_checksum api creator;
      s ← call_balanceOf api instance creator_checksummed position_id;
      holdings_loop api instance condition_id creator collateral_token market
        parent_collection_id rest (holdings ++ [h]) (shares ++ [s])
  end.

Definition get_user_holdings (api : LedgerApi) (contract_address : string)
    (outcome_slot_count : Z)
    (condition_id creator collateral_token market parent_collection_id : string)
  : M (gmap string jval) :=
  instance ← call_get_instance api contract_address;
  '(holdings, shares) ← holdings_loop api instance condition_id creator collateral_token
      market parent_collection_id (get_partitions outcome_slot_count) [] [];
  mret {[ "holdings" := JInts holdings; "shares" := JInts shares ]}.

(** ** [build_merge_positions_tx] *)

Definition build_merge_positions_tx (api : LedgerApi) (contract_address collateral_token : string)
    (parent_collection_id condition_id : bytes) (outcome_slot_count amount : Z)
    (kwargs : gmap string pyarg) : M (gmap string jval) :=
  instance ← call_get_instance api contract_address;
  let partition := get_partitions outcome_slot_count in
  token ← call_to_checksum api collateral_token;
  data ← call_encodeABI api instance "mergePositions"
           [ArgStr token; ArgBytes parent_collection_id; ArgBytes condition_id;
            ArgInts partition; ArgInt amount];
  mret {[ "data" := JStr data ]}.

(** ** What the payout summary is meant to hold

    The summary in the specification's words: an entry is credited to a key
    when it carries a condition id and a strictly positive payout; the key
    is the id, hex-encoded when it is [bytes]. *)
Definition credited (e : log_entry) : option (string * Z) :=
  a ← args e;
  c ← conditionId a;
  p ← payout a;
  if bool_decide (0 < p) then Some (payout_key c, p) else None.

(** [e] is credited to [k], whatever the amount. *)
Definition credits (k : string) (e : log_entry) : Prop :=
  ∃ v, credited e = Some (k, v).

(** [v] is the payout of the last entry of [l] credited to [k]. *)
Definition last_credit (l : list log_entry) (k : string) (v : Z) : Prop :=
  ∃ before e after,
    l = before ++ e :: after ∧ credited e = Some (k, v) ∧ Forall (λ e', ¬ credits k e') after.

(** ** Reading the trace of [get_user_holdings] *)

(** The index sets of the collection-id derivations, in call order. *)
Definition collection_id_calls (tr : list event) : list Z :=
  omap (λ ev, match ev with EvGetCollectionId _ _ i => Some i | _ => None end) tr.

(** The position-id derivations (hashes), in call order. *)
Definition position_id_calls (tr : list event) : list (list pyarg) :=
  omap (λ ev, match ev with EvSolidityKeccak _ vs => Some vs | _ => None end) tr.

(** The balance reads, owner and position, in call order. *)
Definition balance_reads (tr : list event) : list (string * Z) :=
  omap (λ ev, match ev with EvBalanceOf o p => Some (o, p) | _ => None end) tr.

(** The value a call returned, [d] when it did not return. *)
Definition returned {A} (d : A) (o : outcome A) : A :=
  match o with Returns a => a | _ => d end.

Section HoldingsCalls.
Context (api : LedgerApi) (instance : contract_instance).
Context (condition_id creator collateral_token market parent_collection_id : string).

Definition collection_id_of (i : Z) : Z :=
  int_from_bytes_big
    (returned [] (getCollectionId api instance parent_collection_id condition_id i)).

Definition position_id_of (i : Z) : Z :=
  int_from_bytes_big
    (returned []
       (solidity_keccak api ["address"; "uint256"]
          [ArgStr (returned "" (to_checksum_address api collateral_token));
           ArgInt (collection_id_of i)])).

Definition market_balance (i : Z) : Z :=
  returned 0 (balanceOf api instance (returned "" (to_checksum_address api market))
                (position_id_of i)).

Definition creator_balance (i : Z) : Z :=
  returned 0 (balanceOf api instance (returned "" (to_checksum_address api creator))
                (position_id_of i)).

(** The calls one partition element costs when all of them return. *)
Definition holdings_calls (i : Z) : list event :=
  [EvGetCollectionId parent_collection_id condition_id i;
   EvToChecksum collateral_token;
   EvSolidityKeccak ["address"; "uint256"]
     [ArgStr (returned "" (to_checksum_address api collateral_token));
      ArgInt (collection_id_of i)];
   EvToChecksum market;
   EvBalanceOf (returned "" (to_checksum_address api market)) (position_id_of i);
   EvToChecksum creator;
   EvBalanceOf (returned "" (to_checksum_address api creator)) (position_id_of i)].

End HoldingsCalls.

Section HoldingsSteps.
Context (api : LedgerApi) (instance : contract_instance).
Context (condition_id creator collateral_token market parent_collection_id : string).

(** The seven calls of the loop body for the index set [i], each on the
    arguments the body hands it, all return. *)
Definition holdings_step_returns (i : Z) : Prop :=
  ∃ raw token digest market' h creator' s,
    getCollectionId api instance parent_collection_id condition_id i = Returns raw
    ∧ to_checksum_address api collateral_token = Returns token
    ∧ solidity_keccak api ["address"; "uint256"]
        [ArgStr token; ArgInt (int_from_bytes_big raw)] = Returns digest
    ∧ to_checksum_address api market = Returns market'
    ∧ balanceOf api instance market' (int_from_bytes_big digest) = Returns h
    ∧ to_checksum_address api creator = Returns creator'
    ∧ balanceOf api instance creator' (int_from_bytes_big digest) = Returns s.

(** One of the seven calls of the loop body for [i] raises [e], the calls
    before it in the body having returned. *)
Definition holdings_step_raises (i : Z) (e : exn) : Prop :=
  getCollectionId api instance parent_collection_id condition_id i = Raises e
  ∨ ∃ raw,
      getCollectionId api instance parent_collection_id condition_id i = Returns raw
      ∧ (to_checksum_address api collateral_token = Raises e
         ∨ ∃ token,
             to_checksum_address api collateral_token = Returns token
             ∧ (solidity_keccak api ["address"; "uint256"]
                  [ArgStr token; ArgInt (int_from_bytes_big raw)] = Raises e
                ∨ ∃ digest,
                    solidity_keccak api ["address"; "uint256"]
                      [ArgStr token; ArgInt (int_from_bytes_big raw)] = Returns digest
                    ∧ (to_checksum_address api market = Raises e
                       ∨ ∃ market',
                           to_checksum_address api market = Returns market'
                           ∧ (balanceOf api instance market' (int_from_bytes_big digest)
                              = Raises e
                              ∨ ∃ h,
                                  balanceOf api instance market' (int_from_bytes_big digest)
                                  = Returns h
                                  ∧ (to_checksum_address api creator = Raises e
                                     ∨ ∃ creator',
                                         to_checksum_address api creator = Returns creator'
                                         ∧ balanceOf api instance creator'
                                             (int_from_bytes_big digest) = Raises e))))).

End HoldingsSteps.

(** ** Scripted chain clients, to run the operations on concrete inputs *)

Definition redemption (c : condition_key) (p : Z) : log_entry :=
  {| args := Some {| conditionId := Some c; payout := Some p |} |}.

(** Three logged redemptions: 0xAA paid 5, 0xAA paid 7, 0xBB paid 0. *)
Definition sample_log : list log_entry :=
  [redemption (CidBytes [xaa]) 5; redemption (CidBytes [xaa]) 7;
   redemption (CidBytes [xbb]) 0].

Definition word32 (last : byte) : bytes := replicate 31 x00 ++ [last].

(** A client that answers every call. *)
Definition scripted_api : LedgerApi :=
  {| get_instance := λ a, Returns {| instance_address := a |};
     to_checksum_address := λ a, Returns a;
     solidity_keccak := λ _ _, Returns (word32 x07);
     hexbytes_hex := bytes_hex;
     getCollectionId := λ _ _ _ _, Returns (word32 x01);
     balanceOf := λ _ owner _, Returns (if String.eqb owner "0xMarket" then 10 else 3);
     payoutDenominator := λ _ _, Returns 1;
     encodeABI := λ _ fn _, Returns ("0x" +:+ fn);
     get_all_entries := λ _ _, Returns sample_log |}.

(** A client whose node fails: reads of the contract raise, the log query
    hits the transport's read timeout. *)
Definition failing_api : LedgerApi :=
  {| get_instance := λ a, Returns {| instance_address := a |};
     to_checksum_address := λ a, Returns a;
     solidity_keccak := λ _ _, Returns (word32 x07);
     hexbytes_hex := bytes_hex;
     getCollectionId := λ _ _ _ _, Raises (ChainError "execution reverted");
     balanceOf := λ _ _ _, Raises (ChainError "execution reverted");
     payoutDenominator := λ _ _, Raises (ChainError "execution reverted");
     encodeABI := λ _ fn _, Returns ("0x" +:+ fn);
     get_all_entries := λ _ _, Raises RequestsReadTimeoutError |}.

(** A client whose log query never answers. *)
Definition hanging_api : LedgerApi :=
  {| get_instance := λ a, Returns {| instance_address := a |};
     to_checksum_address := λ a, Returns a;
     solidity_keccak := λ _ _, Returns (word32 x07);
     hexbytes_hex := bytes_hex;
     getCollectionId := λ _ _ _ _, Diverges;
     balanceOf := λ _ _ _, Diverges;
     payoutDenominator := λ _ _, Diverges;
     encodeABI := λ _ fn _, Returns ("0x" +:+ fn);
     get_all_entries := λ _ _, Diverges |}.

(** A client on which every call answers but the creator's balance read. *)
Definition creator_failing_api : LedgerApi :=
  {| get_instance := λ a, Returns {| instance_address := a |};
     to_checksum_address := λ a, Returns a;
     solidity_keccak := λ _ _, Returns (word32 x07);
     hexbytes_hex := bytes_hex;
     getCollectionId := λ _ _ _ _, Returns (word32 x01);
     balanceOf := λ _ owner _,
       if String.eqb owner "0xMarket" then Returns 10
       else Raises (ChainError "execution reverted");
     payoutDenominator := λ _ _, Returns 1;
     encodeABI := λ _ fn _, Returns ("0x" +:+ fn);
     get_all_entries := λ _ _, Returns sample_log |}.

Definition py311 : runtime := {| futures_timeout_is_builtin := true |}.
Definition py310 : runtime := {| futures_timeout_is_builtin := false |}.

(** ** [get_prepare_condition_tx_data] and [get_condition_id]

    These two are followed for their result only, so their calls are
    sequenced in [outcome] itself, without a trace. *)

Global Instance outcome_ret : MRet outcome := λ A a, Returns a.

Global Instance outcome_bind : MBind outcome := λ A B f o,
  match o with
  | Returns a => f a
  | Raises e => Raises e
  | Diverges => Diverges
  end.

(** [get_prepare_condition_tx_data]. [encode] is the instance's
    [encodeABI(fn_name=..., kwargs=...)]; the result maps ["data"] to the
    bytes of [bytes.fromhex(data[2:])]. *)
Definition get_prepare_condition_tx_data (api : LedgerApi)
    (encode : contract_instance → string → gmap string pyarg → outcome string)
    (contract_address question_id oracle_contract : string) (outcome_slot_count : Z)
  : outcome (gmap string bytes) :=
  oracle ← to_checksum_address api oracle_contract;
  let kwargs : gmap string pyarg :=
    {[ "oracle" := ArgStr oracle; "questionId" := ArgStr question_id;
       "outcomeSlotCount" := ArgInt outcome_slot_count ]} in
  contract_instance ← get_instance api contract_address;
  data ← encode contract_instance "prepareCondition" kwargs;
  raw ← bytes_fromhex (str_from_2 data);
  mret {[ "data" := raw ]}.

(** A decoded [ConditionPreparation] log, with the arguments the event
    declares. *)
Record preparation_log := {
  log_conditionId : bytes;
  log_oracle : string;
  log_questionId : bytes;
  log_outcomeSlotCount : Z;
}.

(** [(log,) = ...]: unpacking into one name wants exactly one element. *)
Definition unpack_single {A} (l : list A) : outcome A :=
  match l with
  | [x] => Returns x
  | _ => Raises ValueError
  end.

(** [get_condition_id]. [receipt_logs] is the receipt lookup followed by
    [ConditionPreparation().process_receipt]. *)
Definition get_condition_id (api : LedgerApi)
    (receipt_logs : contract_instance → string → outcome (list preparation_log))
    (contract_address tx_digest : string) : outcome string :=
  contract_instance ← get_instance api contract_address;
  logs ← receipt_logs contract_instance tx_digest;
  log ← unpack_single logs;
  mret ("0x" +:+ bytes_hex (log_conditionId log)).

(** * Bets, embedded from [packages/valory/skills/market_manager_abci/bets.py] *)

Module Bets.

Definition BINARY_N_SLOTS : Z := 2.

Inductive BetStatus : Type := UNPROCESSED | PROCESSED | BLACKLISTED.

(** [auto()] numbers the members from 1, in the order they are written. *)
Definition BetStatus_value (s : BetStatus) : Z :=
  match s with
  | UNPROCESSED => 1
  | PROCESSED => 2
  | BLACKLISTED => 3
  end.

(** [BetStatus(v)]: the member with that value, a [ValueError] (here
    [None]) when there is none. *)
Definition BetStatus_of_value (v : Z) : option BetStatus :=
  if v =? 1 then Some UNPROCESSED
  else if v =? 2 then Some PROCESSED
  else if v =? 3 then Some BLACKLISTED
  else None.

(** The exceptions of this module's methods. *)
Inductive error : Type := RaisedValueError | RaisedIndexError.

Inductive result (A : Type) : Type :=
| Ok (a : A)
| Raised (e : error).
Arguments Ok {A} a.
Arguments Raised {A} e.

(** [status] is a member, or the integer a decoded JSON object carries. *)
Inductive status_field : Type :=
| StatusMember (s : BetStatus)
| StatusInt (v : Z).

(** [outcomes] is [None], a list of names, or a string (["null"] is the
    one the code looks for). *)
Inductive outcomes_field : Type :=
| OutcomesNone
| OutcomesStr (s : string)
| OutcomesList (l : list string).

Section WithFloat.
Context {float : Type}.

Record Bet := {
  bet_id : string;
  market : string;
  title : string;
  creator : string;
  fee : Z;
  openingTimestamp : Z;
  outcomeSlotCount : Z;
  outcomeTokenAmounts : list Z;
  outcomeTokenMarginalPrices : list float;
  outcomes : outcomes_field;
  usdLiquidityMeasure : float;
  status : status_field;
  blacklist_expiration : float;
}.

Definition set_outcomes (b : Bet) (o : outcomes_field) : Bet :=
  {| bet_id := bet_id b; market := market b; title := title b; creator := creator b;
     fee := fee b; openingTimestamp := openingTimestamp b;
     outcomeSlotCount := outcomeSlotCount b;
     outcomeTokenAmounts := outcomeTokenAmounts b;
     outcomeTokenMarginalPrices := outcomeTokenMarginalPrices b;
     outcomes := o;
     usdLiquidityMeasure := usdLiquidityMeasure b; status := status b;
     blacklist_expiration := blacklist_expiration b |}.

Definition set_status (b : Bet) (st : status_field) : Bet :=
  {| bet_id := bet_id b; market := market b; title := title b; creator := creator b;
     fee := fee b; openingTimestamp := openingTimestamp b;
     outcomeSlotCount := outcomeSlotCount b;
     outcomeTokenAmounts := outcomeTokenAmounts b;
     outcomeTokenMarginalPrices := outcomeTokenMarginalPrices b;
     outcomes := outcomes b;
     usdLiquidityMeasure := usdLiquidityMeasure b; status := st;
     blacklist_expiration := blacklist_expiration b |}.

(** [len(self.outcomes) != len(self.outcomeTokenAmounts)
     != len(self.outcomeTokenMarginalPrices) != self.outcomeSlotCount]:
    a chained comparison is the conjunction of its neighbouring pairs. *)
Definition lengths_chain (n : nat) (b : Bet) : bool :=
  negb (n =? length (outcomeTokenAmounts b))%nat
  && negb (length (outcomeTokenAmounts b) =? length (outcomeTokenMarginalPrices b))%nat
  && negb (Z.of_nat (length (outcomeTokenMarginalPrices b)) =? outcomeSlotCount b).

(** The condition under which [__post_init__] resets [outcomes]. *)
Definition outcomes_rejected (b : Bet) : bool :=
  match outcomes b with
  | OutcomesNone => true
  | OutcomesStr s => String.eqb s "null" || lengths_chain (String.length s) b
  | OutcomesList l => lengths_chain (length l) b
  end.

Definition post_init (b : Bet) : result Bet :=
  let b := if outcomes_rejected b then set_outcomes b OutcomesNone else b in
  match status b with
  | StatusInt v =>
      match BetStatus_of_value v with
      | Some s => Ok (set_status b (StatusMember s))
      | None => Raised RaisedValueError
      end
  | StatusMember _ => Ok b
  end.

(** [seq[index]] for a list or a string: a negative index counts from the
    end, and an index outside [-len, len) is an [IndexError]. *)
Definition py_index {A} (l : list A) (index : Z) : option A :=
  if 0 <=? index then l !! Z.to_nat index
  else if - Z.of_nat (length l) <=? index
       then l !! Z.to_nat (Z.of_nat (length l) + index)
       else None.

(** [get_outcome]. The [except KeyError] clause is on a sequence lookup,
    which raises [IndexError]: it catches nothing. *)
Definition get_outcome (b : Bet) (index : Z) : result string :=
  match outcomes b with
  | OutcomesNone => Raised RaisedValueError
  | OutcomesList l =>
      match py_index l index with
      | Some o => Ok o
      | None => Raised RaisedIndexError
      end
  | OutcomesStr s =>
      match py_index (list_ascii_of_string s) index with
      | Some c => Ok (String c EmptyString)
      | None => Raised RaisedIndexError
      end
  end.

Definition _get_binary_outcome (b : Bet) (no : bool) : result string :=
  if outcomeSlotCount b =? BINARY_N_SLOTS
  then get_outcome b (if no then 1 else 0)
  else Raised RaisedValueError.

Definition yes (b : Bet) : result string := _get_binary_outcome b false.
Definition no (b : Bet) : result string := _get_binary_outcome b true.

(** What [BetsEncoder] writes for the status of a bet, and the bet
    [BetsDecoder.hook] builds from the written fields: the [Bet]
    constructor called on them, the integer in place of the member. *)
Definition encoded_status (b : Bet) : status_field :=
  match status b with
  | StatusMember s => StatusInt (BetStatus_value s)
  | StatusInt v => StatusInt v
  end.

Definition decode_encoded (b : Bet) : result Bet :=
  post_init (set_status b (encoded_status b)).

End WithFloat.
Arguments Bet : clear implicits.

End Bets.

(** * The trade-volume strategy, embedded from
    [packages/valory/customs/trade_volume_with_conf/trade_volume_with_conf.py] *)

Module Strategy.

Definition REQUIRED_FIELDS : list string := ["confidence"; "volume_per_confidence"].

(** The exceptions a call with ill-typed arguments ends in. *)
Inductive error : Type := RaisedTypeError | RaisedAttributeError.

Inductive result (A : Type) : Type :=
| Ok (a : A)
| Raised (e : error).
Arguments Ok {A} a.
Arguments Raised {A} e.

Section WithFloat.
(** Floats stay abstract; [round1_str x] is [str(round(x, 1))]. *)
Context {float : Type} (round1_str : float → string).

(** The keyword arguments' values: [None], a float, an integer, a
    dictionary from confidence levels to volumes, or an object of another
    kind (neither a number nor a dictionary). *)
Inductive value : Type :=
| VNone
| VFloat (x : float)
| VInt (n : Z)
| VDict (m : gmap string Z)
| VOther.

(** The two messages, kept as the parts their f-strings interpolate. *)
Inductive message : Type :=
| NoTradeVolume (confidence_level : string) (volume_per_confidence : gmap string Z)
| RequiredNotProvided (missing : list string).

(** What the result maps a key to: a volume, or the one-element tuple
    holding a message. *)
Inductive answer : Type :=
| Volume (v : Z)
| ErrorTuple (m : message).

Definition is_None (v : option value) : bool :=
  match v with
  | None | Some VNone => true
  | _ => false
  end.

(** [kwargs.get(field, None) is None], field by field, appending. *)
Definition check_missing_fields (kwargs : gmap string value) : list string :=
  fold_left
    (λ missing field, if is_None (kwargs !! field) then missing ++ [field] else missing)
    REQUIRED_FIELDS [].

Definition remove_irrelevant_fields (kwargs : gmap string value) : gmap string value :=
  filter (λ kv, kv.1 ∈ REQUIRED_FIELDS) kwargs.

(** [str(round(confidence, 1))]: an integer rounds to itself; what is not
    a number has no [__round__], a [TypeError]. *)
Definition confidence_level_of (confidence : value) : result string :=
  match confidence with
  | VFloat x => Ok (round1_str x)
  | VInt n => Ok (pretty n)
  | _ => Raised RaisedTypeError
  end.

Definition volume_based_on_confidence (confidence volume_per_confidence : value)
  : result (gmap string answer) :=
  match confidence_level_of confidence with
  | Raised e => Raised e
  | Ok confidence_level =>
      match volume_per_confidence with
      | VDict m =>
          match m !! confidence_level with
          | None => Ok {[ "error" := ErrorTuple (NoTradeVolume confidence_level m) ]}
          | Some trade_volume => Ok {[ "trade_volume" := Volume trade_volume ]}
          end
      | _ => Raised RaisedAttributeError  (* no [.get] on it *)
      end
  end.

(** Calling [volume_based_on_confidence] with a dictionary unpacked into
    keyword arguments: a key that is no parameter, or a parameter without
    a key, is a [TypeError]. *)
Definition call_with_kwargs (kwargs : gmap string value) : result (gmap string answer) :=
  if decide (map_Forall (λ key _, key ∈ REQUIRED_FIELDS) kwargs)
  then
    match kwargs !! "confidence", kwargs !! "volume_per_confidence" with
    | Some confidence, Some volume_per_confidence =>
        volume_based_on_confidence confidence volume_per_confidence
    | _, _ => Raised RaisedTypeError
    end
  else Raised RaisedTypeError.

Definition run (kwargs : gmap string value) : result (gmap string answer) :=
  let missing := check_missing_fields kwargs in
  if (0 <? length missing)%nat
  then Ok {[ "error" := ErrorTuple (RequiredNotProvided missing) ]}
  else call_with_kwargs (remove_irrelevant_fields kwargs).

End WithFloat.
Arguments value : clear implicits.

End Strategy.

(** ** Sample bets *)

(** A binary bet as it is decoded, its status still an integer; floats
    are written as their literals. *)
Definition sample_bet : Bets.Bet string :=
  {| Bets.bet_id := "0xbet"; Bets.market := "omen"; Bets.title := "Will it rain?";
     Bets.creator := "0xCreator"; Bets.fee := 2; Bets.openingTimestamp := 1700000000;
     Bets.outcomeSlotCount := 2; Bets.outcomeTokenAmounts := [10; 20];
     Bets.outcomeTokenMarginalPrices := ["0.5"; "0.5"];
     Bets.outcomes := Bets.OutcomesList ["Yes"; "No"];
     Bets.usdLiquidityMeasure := "15.0"; Bets.status := Bets.StatusInt 1;
     Bets.blacklist_expiration := "-1" |}.

(** A bet with one outcome and one amount, but two prices and two slots. *)
Definition lopsided_bet : Bets.Bet string :=
  {| Bets.bet_id := "0xbet"; Bets.market := "omen"; Bets.title := "Will it rain?";
     Bets.creator := "0xCreator"; Bets.fee := 2; Bets.openingTimestamp := 1700000000;
     Bets.outcomeSlotCount := 2; Bets.outcomeTokenAmounts := [7];
     Bets.outcomeTokenMarginalPrices := ["0.5"; "0.5"];
     Bets.outcomes := Bets.OutcomesList ["Yes"];
     Bets.usdLiquidityMeasure := "15.0";
     Bets.status := Bets.StatusMember Bets.UNPROCESSED;
     Bets.blacklist_expiration := "-1" |}.

(** * The decision-making rounds, embedded from
    [packages/valory/skills/decision_maker_abci/rounds.py] *)

Module DecisionMaker.

Inductive Round : Type :=
| SamplingRound
| DecisionRequestRound
| DecisionReceiveRound
| BlacklistingRound
| BetPlacementRound
| RedeemRound
| HandleFailedTxRound
| FinishedDecisionMakerRound
| FinishedWithoutDecisionRound
| FinishedWithoutRedeemingRound
| RefillRequiredRound
| ImpossibleRound.

(** The events the table names: members of the skill's [Event], and
    [FETCH_ERROR] of the market manager's. *)
Inductive Event : Type :=
| DONE
| NONE
| NO_MAJORITY
| ROUND_TIMEOUT
| SLOTS_UNSUPPORTED_ERROR
| MECH_RESPONSE_ERROR
| TIE
| UNPROFITABLE
| INSUFFICIENT_BALANCE
| NO_REDEEMING
| BLACKLIST
| NO_OP
| FETCH_ERROR.

Global Instance Round_eq_dec : EqDecision Round.
Proof. solve_decision. Defined.

Global Instance Event_eq_dec : EqDecision Event.
Proof. solve_decision. Defined.

Definition initial_round_cls : Round := SamplingRound.

Definition initial_states : list Round :=
  [SamplingRound; HandleFailedTxRound; DecisionReceiveRound; RedeemRound].

(** The dictionary literal, entry by entry. *)
Definition transition_function : list (Round * list (Event * Round)) :=
  [ (SamplingRound,
      [ (DONE, DecisionRequestRound);
        (NONE, FinishedWithoutDecisionRound);
        (NO_MAJORITY, SamplingRound);
        (ROUND_TIMEOUT, SamplingRound) ]);
    (DecisionRequestRound,
      [ (DONE, FinishedDecisionMakerRound);
        (SLOTS_UNSUPPORTED_ERROR, BlacklistingRound);
        (NO_MAJORITY, DecisionRequestRound);
        (ROUND_TIMEOUT, DecisionRequestRound);
        (NONE, ImpossibleRound) ]);
    (DecisionReceiveRound,
      [ (DONE, BetPlacementRound);
        (MECH_RESPONSE_ERROR, DecisionReceiveRound);
        (NO_MAJORITY, DecisionReceiveRound);
        (TIE, BlacklistingRound);
        (UNPROFITABLE, BlacklistingRound);
        (ROUND_TIMEOUT, BlacklistingRound) ]);
    (BlacklistingRound,
      [ (DONE, FinishedWithoutDecisionRound);
        (NONE, ImpossibleRound);
        (NO_MAJORITY, BlacklistingRound);
        (ROUND_TIMEOUT, BlacklistingRound);
        (FETCH_ERROR, ImpossibleRound) ]);
    (BetPlacementRound,
      [ (DONE, FinishedDecisionMakerRound);
        (INSUFFICIENT_BALANCE, RefillRequiredRound);
        (NO_MAJORITY, BetPlacementRound);
        (ROUND_TIMEOUT, BetPlacementRound);
        (NONE, ImpossibleRound) ]);
    (RedeemRound,
      [ (DONE, FinishedDecisionMakerRound);
        (NO_REDEEMING, FinishedWithoutRedeemingRound);
        (NO_MAJORITY, RedeemRound);
        (ROUND_TIMEOUT, RedeemRound);
        (NONE, ImpossibleRound) ]);
    (HandleFailedTxRound,
      [ (BLACKLIST, BlacklistingRound);
        (NO_OP, RedeemRound);
        (NO_MAJORITY, HandleFailedTxRound) ]);
    (FinishedDecisionMakerRound, []);
    (FinishedWithoutDecisionRound, []);
    (FinishedWithoutRedeemingRound, []);
    (RefillRequiredRound, []);
    (ImpossibleRound, []) ].

Definition final_states : list Round :=
  [FinishedDecisionMakerRound; FinishedWithoutDecisionRound;
   FinishedWithoutRedeemingRound; RefillRequiredRound; ImpossibleRound].

(** The keys of [db_pre_conditions] and of [db_post_conditions], with the
    names of the synchronized data each one lists. *)
Definition db_pre_conditions : list (Round * list string) :=
  [ (RedeemRound, []);
    (DecisionReceiveRound, ["final_tx_hash"]);
    (HandleFailedTxRound, ["bets"]);
    (SamplingRound, []) ].

Definition db_post_conditions : list (Round * list string) :=
  [ (FinishedDecisionMakerRound, ["sampled_bet_index"; "tx_submitter"; "most_voted_tx_hash"]);
    (FinishedWithoutDecisionRound, ["sampled_bet_index"]);
    (FinishedWithoutRedeemingRound, []);
    (RefillRequiredRound, []);
    (ImpossibleRound, []) ].

(** [d[key]] on a dictionary written as its list of entries. *)
Fixpoint entry {K V} `{EqDecision K} (key : K) (d : list (K * V)) : option V :=
  match d with
  | [] => None
  | (k, v) :: rest => if decide (k = key) then Some v else entry key rest
  end.

(** One transition: the round that follows [r] on [e], if the table has it. *)
Definition step (r : Round) (e : Event) : option Round :=
  transitions ← entry r transition_function;
  entry e transitions.

(** The round reached from [r] along a sequence of events. *)
Fixpoint run (r : Round) (events : list Event) : option Round :=
  match events with
  | [] => Some r
  | e :: rest => r' ← step r e; run r' rest
  end.

(** The transition table as the class docstring gives it: rounds by
    number, each with its events and the number of the round that
    follows. *)
Definition documented_rounds : list Round :=
  [SamplingRound; DecisionRequestRound; DecisionReceiveRound; BlacklistingRound;
   BetPlacementRound; RedeemRound; HandleFailedTxRound; FinishedDecisionMakerRound;
   FinishedWithoutDecisionRound; FinishedWithoutRedeemingRound; RefillRequiredRound;
   ImpossibleRound].

Definition documented_transitions : list (list (Event * nat)) :=
  [ [ (DONE, 1); (NONE, 8); (NO_MAJORITY, 0); (ROUND_TIMEOUT, 0) ];
    [ (DONE, 7); (SLOTS_UNSUPPORTED_ERROR, 3); (NO_MAJORITY, 1); (ROUND_TIMEOUT, 1);
      (NONE, 11) ];
    [ (DONE, 4); (MECH_RESPONSE_ERROR, 2); (NO_MAJORITY, 2); (TIE, 3); (UNPROFITABLE, 3);
      (ROUND_TIMEOUT, 3) ];
    [ (DONE, 8); (NONE, 11); (NO_MAJORITY, 3); (ROUND_TIMEOUT, 3); (FETCH_ERROR, 11) ];
    [ (DONE, 7); (INSUFFICIENT_BALANCE, 10); (NO_MAJORITY, 4); (ROUND_TIMEOUT, 4);
      (NONE, 11) ];
    [ (DONE, 7); (NO_REDEEMING, 9); (NO_MAJORITY, 5); (ROUND_TIMEOUT, 5); (NONE, 11) ];
    [ (BLACKLIST, 3); (NO_OP, 5); (NO_MAJORITY, 6) ];
    []; []; []; []; [] ]%nat.

Definition documented_initial_round : Round := SamplingRound.

Definition documented_initial_states : list Round :=
  [DecisionReceiveRound; HandleFailedTxRound; RedeemRound; SamplingRound].

Definition documented_final_states : list Round :=
  [FinishedDecisionMakerRound; FinishedWithoutDecisionRound;
   FinishedWithoutRedeemingRound; ImpossibleRound; RefillRequiredRound].

(** The documented table read as a dictionary over rounds. *)
Definition documented_table : list (Round * list (Event * option Round)) :=
  zip documented_rounds
    (map (map (λ '(e, n), (e, documented_rounds !! n))) documented_transitions).

End DecisionMaker.

(** * Properties *)

(** ** The partition generator *)

Section Partitions.

Lemma get_partitions_succ (k : nat) :
  get_partitions (Z.of_nat (S k)) = get_partitions (Z.of_nat k) ++ [2 ^ Z.of_nat k].
Proof.
  unfold get_partitions. rewrite seqZ_S, fmap_app. simpl.
  by rewrite Z.add_0_l, Z.shiftl_1_l.
Qed.

Lemma get_partitions_lookup (n : Z) (i : nat) :
  Z.of_nat i < n → get_partitions n !! i = Some (Z.shiftl 1 (Z.of_nat i)).
Proof.
  intros Hi. unfold get_partitions.
  by rewrite list_lookup_fmap, lookup_seqZ_lt, Z.add_0_l.
Qed.

Lemma get_partitions_length (n : Z) : length (get_partitions n) = Z.to_nat n.
Proof. unfold get_partitions. by rewrite length_fmap, length_seqZ. Qed.

Lemma get_partitions_elem (n x : Z) :
  x ∈ get_partitions n ↔ ∃ k, 0 ≤ k < n ∧ x = 2 ^ k.
Proof.
  unfold get_partitions. rewrite list_elem_of_fmap. split.
  - intros (k & -> & Hk). apply elem_of_seqZ in Hk.
    exists k. split; [lia | apply Z.shiftl_1_l].
  - intros (k & Hk & ->). exists k. split; [by rewrite Z.shiftl_1_l |].
    apply elem_of_seqZ. lia.
Qed.

Lemma get_partitions_NoDup (n : Z) : NoDup (get_partitions n).
Proof.
  unfold get_partitions. apply NoDup_fmap_2_strong; [| apply NoDup_seqZ].
  intros x y Hx Hy. apply elem_of_seqZ in Hx, Hy.
  rewrite !Z.shiftl_1_l. apply Z.pow_inj_r; lia.
Qed.

Lemma foldr_lor_app (l1 l2 : list Z) :
  foldr Z.lor 0 (l1 ++ l2) = Z.lor (foldr Z.lor 0 l1) (foldr Z.lor 0 l2).
Proof.
  induction l1 as [| x l1 IH]; simpl.
  - by rewrite Z.lor_0_l.
  - by rewrite IH, Z.lor_assoc.
Qed.

Lemma lor_ones_pow2 (k : Z) : 0 ≤ k → Z.lor (2 ^ k - 1) (2 ^ k) = 2 ^ (k + 1) - 1.
Proof.
  intros Hk. rewrite <- Z.add_nocarry_lor.
  - rewrite Z.pow_add_r by lia. lia.
  - apply Z.bits_inj'. intros i Hi.
    rewrite Z.land_spec, Z.bits_0, Z.sub_1_r, <- Z.ones_equiv.
    rewrite Z.testbit_ones_nonneg, Z.pow2_bits_eqb by lia.
    destruct (Z.ltb_spec i k), (Z.eqb_spec k i); simpl; try reflexivity; lia.
Qed.

Lemma get_partitions_lor_nat (k : nat) :
  foldr Z.lor 0 (get_partitions (Z.of_nat k)) = 2 ^ Z.of_nat k - 1.
Proof.
  induction k as [| k IH].
  - reflexivity.
  - rewrite get_partitions_succ, foldr_lor_app, IH. simpl foldr.
    rewrite Z.lor_0_r, lor_ones_pow2 by lia. f_equal. f_equal. lia.
Qed.

(** C2. For every positive [n], [get_partitions n] is the list
    [1<<0, 1<<1, ..., 1<<(n-1)]: its i-th element is [1 << i], it has
    exactly [n] elements, they are pairwise distinct, each is a power of
    two, and their bitwise OR is [2^n - 1]. *)
Theorem get_partitions_positive (n : Z) (Hn : 0 < n) :
  (∀ i : nat, Z.of_nat i < n → get_partitions n !! i = Some (Z.shiftl 1 (Z.of_nat i)))
  ∧ Z.of_nat (length (get_partitions n)) = n
  ∧ NoDup (get_partitions n)
  ∧ Forall (λ x, ∃ k, 0 ≤ k < n ∧ x = 2 ^ k) (get_partitions n)
  ∧ foldr Z.lor 0 (get_partitions n) = 2 ^ n - 1.
Proof.
  repeat split.
  - intros i. apply get_partitions_lookup.
  - rewrite get_partitions_length. lia.
  - apply get_partitions_NoDup.
  - apply list.Forall_forall. intros x Hx. by apply get_partitions_elem.
  - rewrite <- (Z2Nat.id n) by lia. apply get_partitions_lor_nat.
Qed.

Lemma get_partitions_positive_witness :
  0 < 3 ∧ get_partitions 3 = [1; 2; 4]
  ∧ foldr Z.lor 0 (get_partitions 3) = 2 ^ 3 - 1.
Proof.
  split; [lia |]. split; [reflexivity |].
  exact (proj2 (proj2 (proj2 (proj2 (get_partitions_positive 3 ltac:(lia)))))).
Defined.

(** C4, as the code has it. [get_partitions] has no guard: for every
    [n <= 0], zero and the negative integers alike, it returns the empty
    list, and no exception is raised. *)
Theorem get_partitions_nonpositive (n : Z) (Hn : n ≤ 0) : get_partitions n = [].
Proof.
  unfold get_partitions, seqZ. by replace (Z.to_nat n) with 0%nat by lia.
Qed.

Lemma get_partitions_nonpositive_witness : -4 ≤ 0 ∧ get_partitions (-4) = [].
Proof. split; [lia | apply (get_partitions_nonpositive (-4)); lia]. Defined.

(** C4 does not hold as specified: on 0 and on -1 the call returns a
    value, the empty list, where an [InvalidInputError] is specified. *)
Lemma get_partitions_returns_on_nonpositive :
  get_partitions 0 = [] ∧ get_partitions (-1) = [].
Proof. split; reflexivity. Qed.

End Partitions.

(** ** The redemption aggregator *)

Section Redeemed.

Lemma record_redeeming_credited (m : gmap string Z) (e : log_entry) :
  record_redeeming m e =
    match credited e with
    | Some (k, p) => <[k := p]> m
    | None => m
    end.
Proof.
  unfold record_redeeming, credited.
  destruct e as [[[[c |] [p |]] |]]; simpl; try reflexivity.
  repeat case_bool_decide; try reflexivity; lia.
Qed.

Lemma fold_payouts_snoc (l : list log_entry) (e : log_entry) :
  fold_payouts (l ++ [e]) = record_redeeming (fold_payouts l) e.
Proof. unfold fold_payouts. by rewrite fold_left_app. Qed.

Lemma split_snoc {A} (l l1 l2 : list A) (e e0 : A) :
  l ++ [e] = l1 ++ e0 :: l2 →
  (l2 = [] ∧ l = l1 ∧ e = e0) ∨ (∃ l2', l2 = l2' ++ [e] ∧ l = l1 ++ e0 :: l2').
Proof.
  destruct l2 as [| x l2' _] using rev_ind; intros Heq.
  - apply app_inj_tail in Heq as [-> ->]. by left.
  - right. exists l2'.
    change (l ++ [e] = l1 ++ (e0 :: l2') ++ [x]) in Heq.
    rewrite app_assoc in Heq. apply app_inj_tail in Heq as [-> ->]. done.
Qed.

Lemma last_credit_snoc_other (l : list log_entry) (e : log_entry) (k : string) (v : Z) :
  ¬ credits k e → last_credit (l ++ [e]) k v ↔ last_credit l k v.
Proof.
  intros Hno. split.
  - intros (l1 & e0 & l2 & Heq & Hc & Hafter).
    apply split_snoc in Heq as [(-> & -> & ->) | (l2' & -> & ->)].
    + destruct Hno. by exists v.
    + exists l1, e0, l2'. apply Forall_app in Hafter as [Hafter _]. done.
  - intros (l1 & e0 & l2 & -> & Hc & Hafter).
    exists l1, e0, (l2 ++ [e]). split; [by rewrite <- app_assoc |].
    split; [done |]. apply Forall_app. split; [done | by constructor].
Qed.

Lemma last_credit_snoc_same (l : list log_entry) (e : log_entry) (k : string) (p v : Z) :
  credited e = Some (k, p) → last_credit (l ++ [e]) k v ↔ v = p.
Proof.
  intros He. split.
  - intros (l1 & e0 & l2 & Heq & Hc & Hafter).
    apply split_snoc in Heq as [(-> & -> & ->) | (l2' & -> & ->)].
    + congruence.
    + apply Forall_app in Hafter as [_ Hlast].
      rewrite Forall_singleton in Hlast. destruct Hlast. by exists p.
  - intros ->. exists l, e, []. by repeat split.
Qed.

(** Last write wins: the summary maps [k] to [v] exactly when [v] is the
    payout of the last entry credited to [k]. *)
Lemma fold_payouts_last_credit (l : list log_entry) (k : string) (v : Z) :
  fold_payouts l !! k = Some v ↔ last_credit l k v.
Proof.
  revert v. induction l as [| e l IH] using rev_ind; intros v.
  - unfold fold_payouts. simpl. rewrite lookup_empty. split; [done |].
    intros (l1 & e0 & l2 & Heq & _). by destruct l1.
  - rewrite fold_payouts_snoc, record_redeeming_credited.
    destruct (credited e) as [[k' p] |] eqn:He.
    + destruct (decide (k' = k)) as [-> | Hne].
      * rewrite lookup_insert_eq, (last_credit_snoc_same _ _ _ _ _ He).
        split; congruence.
      * rewrite lookup_insert_ne by done. rewrite IH.
        symmetry. apply last_credit_snoc_other. intros [v' Hv']. congruence.
    + rewrite IH. symmetry. apply last_credit_snoc_other.
      intros [v' Hv']. congruence.
Qed.

(** An entry that is not credited leaves the summary as it was. *)
Lemma fold_payouts_skip (l1 l2 : list log_entry) (e : log_entry) :
  credited e = None → fold_payouts (l1 ++ e :: l2) = fold_payouts (l1 ++ l2).
Proof.
  intros He. unfold fold_payouts. rewrite !fold_left_app. simpl.
  by rewrite record_redeeming_credited, He.
Qed.

Lemma mapM_to_checksum (api : LedgerApi) (tokens tokens' : list string) (t : list event) :
  Forall2 (λ a a', to_checksum_address api a = Returns a') tokens tokens' →
  mapM (call_to_checksum api) tokens t = (Returns tokens', t ++ (EvToChecksum <$> tokens)).
Proof.
  intros H. revert t. induction H as [| a a' l l' Ha _ IH]; intros t.
  - simpl. by rewrite app_nil_r.
  - simpl. unfold mbind, M_bind, call_to_checksum at 1, call. rewrite Ha.
    rewrite IH. unfold mret, M_ret. simpl. by rewrite <- app_assoc.
Qed.

Lemma credited_zero (e : log_entry) (a : event_args) :
  args e = Some a → payout a = Some 0 → credited e = None.
Proof.
  intros Ha Hp. unfold credited. rewrite Ha. simpl.
  destruct (conditionId a); simpl; [| done]. by rewrite Hp.
Qed.

Lemma credited_positive (c : condition_key) (p : Z) :
  0 < p → credited (redemption c p) = Some (payout_key c, p).
Proof. intros Hp. unfold credited. simpl. by case_bool_decide. Qed.

Section Query.
Context `{PyStrOf T} (rt : runtime) (api : LedgerApi).
Context (contract_address redeemer : string) (from_block to_block : Z).
Context (collateral_tokens : list string) (parent_collection_ids condition_ids : list bytes).
Context (index_sets : list (list Z)) (timeout : T).

(** The worker's run when every call before the query answers: the calls
    it makes, and how the query's answer becomes the worker's result. *)
Lemma get_redeem_events_run (t : list event) (instance : contract_instance)
    (redeemer' : string) (tokens' : list string) :
  get_instance api contract_address = Returns instance →
  to_checksum_address api redeemer = Returns redeemer' →
  Forall2 (λ a a', to_checksum_address api a = Returns a') collateral_tokens tokens' →
  let criteria :=
    {| f_redeemer := redeemer'; f_collateralToken := tokens';
       f_parentCollectionId := parent_collection_ids; f_conditionId := condition_ids;
       f_indexSets := index_sets; f_fromBlock := from_block; f_toBlock := to_block |} in
  get_redeem_events api contract_address redeemer from_block to_block collateral_tokens
    parent_collection_ids condition_ids index_sets t
  = (match get_all_entries api instance criteria with
     | Returns redeemed => Returns (PyObj redeemed)
     | Raises e =>
         if is_read_timeout e
         then Returns (PyStr (rpc_timed_out_msg from_block to_block))
         else Raises e
     | Diverges => Diverges
     end,
     t ++ [EvGetInstance contract_address; EvToChecksum redeemer]
       ++ (EvToChecksum <$> collateral_tokens) ++ [EvGetAllEntries criteria]).
Proof.
  intros Hi Hr Hc criteria. unfold get_redeem_events.
  unfold mbind at 1, M_bind, call_get_instance, call. rewrite Hi.
  unfold mbind at 1, call_to_checksum at 1, call. rewrite Hr.
  unfold mbind at 1. rewrite (mapM_to_checksum _ _ _ _ Hc).
  unfold try_except, mbind, call_get_all_entries, call. fold criteria.
  rewrite <- !app_assoc. simpl.
  destruct (get_all_entries api instance criteria) as [redeemed | e |]; simpl.
  - reflexivity.
  - by destruct (is_read_timeout e).
  - reflexivity.
Qed.


End Query.


End Redeemed.

(** ** The bounded executor *)

Section Executor.
Context {A : Type} `{PyStrOf T} (rt : runtime).
Implicit Types (func : M (pyval A)) (timeout : T) (t : list event).

(** The function is submitted once, whatever happens next: the trace grows
    by one [EvSubmit] and the worker's own calls. *)
Lemma execute_with_timeout_trace func (done_by_deadline : bool) timeout t :
  (execute_with_timeout rt func done_by_deadline timeout t).2 = (func (t ++ [EvSubmit])).2.
Proof. unfold execute_with_timeout. by destruct (func (t ++ [EvSubmit])). Qed.

(** A worker that never finishes keeps the caller inside the executor's
    [with] block for ever, deadline or not. *)
Lemma execute_with_timeout_joins_worker func (done_by_deadline : bool) timeout t :
  (func (t ++ [EvSubmit])).1 = Diverges →
  (execute_with_timeout rt func done_by_deadline timeout t).1 = Diverges.
Proof.
  unfold execute_with_timeout. destruct (func (t ++ [EvSubmit])) as [w t'].
  simpl. by intros ->.
Qed.

(** A worker that finishes after the deadline: where the futures timeout is
    the builtin [TimeoutError], the caller gets no value and the synthetic
    message, once the worker has finished; elsewhere the futures timeout
    escapes the [except] clause. *)
Lemma execute_with_timeout_late func timeout t :
  (func (t ++ [EvSubmit])).1 ≠ Diverges →
  (execute_with_timeout rt func false timeout t).1 =
    if futures_timeout_is_builtin rt
    then Returns (PyNone, Some ("The RPC didn't respond in " +:+ py_str timeout +:+ "."))
    else Raises FuturesTimeoutError.
Proof.
  unfold execute_with_timeout. destruct (func (t ++ [EvSubmit])) as [w t'].
  simpl. intros Hw. unfold future_result, deadline_exn.
  destruct w as [d | e |]; [| | done]; by destruct (futures_timeout_is_builtin rt).
Qed.

(** C6. An operation that finishes in time and hands back an error string
    [s]: the executor returns [(None, s)], the string as the error and no
    value. *)
Theorem execute_with_timeout_error_string func timeout t (t' : list event) (s : string) :
  func (t ++ [EvSubmit]) = (Returns (PyStr s), t') →
  execute_with_timeout rt func true timeout t = (Returns (PyNone, Some s), t').
Proof. intros Hf. unfold execute_with_timeout. by rewrite Hf. Qed.

(** C10. Any string the operation returns in time comes out as
    [(None, that string)]; whatever the operation does, a pair the
    executor returns never carries a string as its value; and for an
    operation that returns in time, the error slot is filled exactly when
    the returned object is a string, the object being passed through as
    the value otherwise. *)
Theorem execute_with_timeout_str_is_error func (done_by_deadline : bool) timeout t :
  (∀ t' s, func (t ++ [EvSubmit]) = (Returns (PyStr s), t') →
     execute_with_timeout rt func true timeout t = (Returns (PyNone, Some s), t'))
  ∧ (∀ v e, (execute_with_timeout rt func done_by_deadline timeout t).1 = Returns (v, e) →
       ∀ s, v ≠ PyStr s)
  ∧ (∀ t' data, func (t ++ [EvSubmit]) = (Returns data, t') →
       ∃ v e, execute_with_timeout rt func true timeout t = (Returns (v, e), t')
              ∧ (is_Some e ↔ ∃ s, data = PyStr s)
              ∧ (e = None → v = data)).
Proof.
  split; [| split].
  - intros t' s Hf. unfold execute_with_timeout. by rewrite Hf.
  - intros v e. unfold execute_with_timeout.
    destruct (func (t ++ [EvSubmit])) as [w t']. simpl.
    unfold future_result.
    destruct w as [d | x |]; simpl; [| | done].
    + destruct done_by_deadline.
      * destruct d; intros [= <- <-]; done.
      * destruct (catches_TimeoutError (deadline_exn rt)); [| done].
        intros [= <- <-]; done.
    + destruct done_by_deadline.
      * destruct (catches_TimeoutError x); [| done]. intros [= <- <-]; done.
      * destruct (catches_TimeoutError (deadline_exn rt)); [| done].
        intros [= <- <-]; done.
  - intros t' data Hf. unfold execute_with_timeout. rewrite Hf. simpl.
    destruct data as [| s | a]; eexists _, _; (split; [reflexivity |]); split.
    + split; [by intros [? [=]] | by intros [? [=]]].
    + done.
    + split; [by eexists | by eexists].
    + done.
    + split; [by intros [? [=]] | by intros [? [=]]].
    + done.
Qed.

End Executor.

(** C6 on a worker that reports the log query's read timeout as a string. *)
Lemma execute_with_timeout_error_string_witness :
  execute_with_timeout py311 (λ t, (Returns (PyStr (A := unit) "boom"), t)) true 300 []
    = (Returns (PyNone, Some "boom"), [EvSubmit]).
Proof.
  exact (execute_with_timeout_error_string (A := unit) py311
           (λ t, (Returns (PyStr "boom"), t)) 300 [] [EvSubmit] "boom" eq_refl).
Defined.

(** C10 on a worker whose successful answer happens to be a string. *)
Lemma execute_with_timeout_str_is_error_witness :
  execute_with_timeout py310 (λ t, (Returns (PyStr (A := unit) "0xdata"), t)) true 5 []
    = (Returns (PyNone, Some "0xdata"), [EvSubmit]).
Proof.
  exact (proj1 (execute_with_timeout_str_is_error (A := unit) py310
           (λ t, (Returns (PyStr "0xdata"), t)) true 5 []) [EvSubmit] "0xdata" eq_refl).
Defined.

(** A worker that sleeps past the deadline and then finishes, under an
    interpreter whose futures timeout is the builtin one. *)
Lemma execute_with_timeout_late_witness :
  (execute_with_timeout py311 (λ t, (Returns (PyObj ()), t)) false 300 []).1
  = Returns (PyNone, Some "The RPC didn't respond in 300.").
Proof.
  exact (execute_with_timeout_late py311 (λ t, (Returns (PyObj ()), t)) 300 []
           ltac:(done)).
Defined.

(** The log query of [check_redeemed] against a node that never answers:
    the executor never hands control back. *)
Lemma execute_with_timeout_joins_worker_witness :
  (execute_with_timeout py311
     (get_redeem_events hanging_api "0xC0" "0xR" 100 200 ["0xT"] [word32 x00] [[xaa]]
        [[1; 2]])
     false 300 []).1
  = Diverges.
Proof.
  exact (execute_with_timeout_joins_worker py311
           (get_redeem_events hanging_api "0xC0" "0xR" 100 200 ["0xT"] [word32 x00]
              [[xaa]] [[1; 2]])
           false 300 [] eq_refl).
Defined.

(** C5 at the failing input: an operation that never finishes, with a
    deadline it misses. The caller never gets the [(None, error)] pair. *)
Theorem execute_with_timeout_hangs_with_worker :
  (execute_with_timeout py311 (λ t, (Diverges (A := pyval unit), t)) false 300 []).1
    = Diverges
  ∧ (execute_with_timeout py310 (λ t, (Diverges (A := pyval unit), t)) false 300 []).1
    = Diverges.
Proof. split; reflexivity. Qed.

(** ** Condition ids *)

Section ConditionId.
Context (api : LedgerApi) (contract_address oracle_contract question_id : string).
Context (outcome_slot_count : Z) (t : list event).

(** [bytes.fromhex] raises nothing but [ValueError], and never hangs. *)
Lemma bytes_fromhex_outcome (s : string) :
  (∃ b, bytes_fromhex s = Returns b) ∨ bytes_fromhex s = Raises ValueError.
Proof.
  assert (∀ n s, (String.length s ≤ n)%nat →
            (∃ b, bytes_fromhex s = Returns b) ∨ bytes_fromhex s = Raises ValueError)
    as Hall.
  { clear. induction n as [| n IH]; intros s Hs.
    - destruct s; [| simpl in Hs; lia]. left. by exists [].
    - destruct s as [| c rest]; [left; by exists [] |]. simpl in Hs. simpl.
      destruct (is_space c); [apply IH; lia |].
      destruct (hex_digit_value c); [| by right].
      destruct rest as [| d rest']; [by right |].
      destruct (hex_digit_value d); [| by right].
      simpl in Hs. destruct (IH rest' ltac:(lia)) as [[b ->] | ->].
      + left. by eexists.
      + by right. }
  by eapply Hall.
Qed.

(** C3, as the code has it. [calculate_condition_id] checks neither the
    width of the question id nor the slot count: whenever the checksum,
    [bytes.fromhex(question_id[2:])] and the hasher return, it returns the
    mapping with the digest's hex, whatever the decoded length and the
    slot count, zero included. The one failure of its own making is the
    [ValueError] of [bytes.fromhex] on a string that is not hex. *)
Theorem calculate_condition_id_unchecked :
  (∀ oracle question digest,
     to_checksum_address api oracle_contract = Returns oracle →
     bytes_fromhex (str_from_2 question_id) = Returns question →
     solidity_keccak api ["address"; "bytes32"; "uint256"]
       [ArgStr oracle; ArgBytes question; ArgInt outcome_slot_count] = Returns digest →
     calculate_condition_id api contract_address oracle_contract question_id
       outcome_slot_count t
     = (Returns {[ "condition_id" := JStr (hexbytes_hex api digest) ]},
        t ++ [EvToChecksum oracle_contract;
              EvSolidityKeccak ["address"; "bytes32"; "uint256"]
                [ArgStr oracle; ArgBytes question; ArgInt outcome_slot_count]]))
  ∧ (∀ oracle,
       to_checksum_address api oracle_contract = Returns oracle →
       (∀ question, bytes_fromhex (str_from_2 question_id) ≠ Returns question) →
       calculate_condition_id api contract_address oracle_contract question_id
         outcome_slot_count t
       = (Raises ValueError, t ++ [EvToChecksum oracle_contract])).
Proof.
  split.
  - intros oracle question digest Ho Hq Hd. unfold calculate_condition_id.
    unfold mbind, M_bind, call_to_checksum, call_solidity_keccak, call.
    rewrite Ho, Hq, Hd. unfold mret, M_ret. by rewrite <- app_assoc.
  - intros oracle Ho Hq. unfold calculate_condition_id.
    unfold mbind, M_bind, call_to_checksum, call. rewrite Ho.
    destruct (bytes_fromhex_outcome (str_from_2 question_id)) as [[b Hb] | ->]; [| done].
    by destruct (Hq b).
Qed.

End ConditionId.

(** C3 on the scripted client: a one-byte question id and zero slots. *)
Lemma calculate_condition_id_unchecked_witness :
  calculate_condition_id scripted_api "0xC0" "0x01" "0x00" 0 []
  = (Returns {[ "condition_id" := JStr (bytes_hex (word32 x07)) ]},
     [EvToChecksum "0x01";
      EvSolidityKeccak ["address"; "bytes32"; "uint256"]
        [ArgStr "0x01"; ArgBytes [x00]; ArgInt 0]]).
Proof.
  exact (proj1 (calculate_condition_id_unchecked scripted_api "0xC0" "0x01" "0x00" 0 [])
           "0x01" [x00] (word32 x07) eq_refl eq_refl eq_refl).
Defined.

(** C3 does not hold as specified: a question id of one byte and a slot count of
    zero, and a question id of 32 bytes with a slot count of zero, both
    return a condition id where an [InvalidInputError] is specified. *)
Lemma calculate_condition_id_accepts_malformed :
  (calculate_condition_id scripted_api "0xC0" "0x01" "0x00" 0 []).1
    = Returns {[ "condition_id" := JStr (bytes_hex (word32 x07)) ]}
  ∧ (calculate_condition_id scripted_api "0xC0" "0x01"
       "0x0000000000000000000000000000000000000000000000000000000000000000" 0 []).1
    = Returns {[ "condition_id" := JStr (bytes_hex (word32 x07)) ]}.
Proof. split; reflexivity. Qed.

(** ** Building the merge call *)

Section Merge.
Context (api : LedgerApi) (contract_address collateral_token : string).
Context (parent_collection_id condition_id : bytes) (outcome_slot_count amount : Z).

(** C8. [build_merge_positions_tx] takes the partition from
    [get_partitions outcome_slot_count] and from nothing else: extra keyword
    arguments of the caller change nothing, and the one [encodeABI] call it
    makes is for [mergePositions] with the checksummed token, the two ids,
    that partition and the amount, whose encoding it returns as [data].
    For three slots the partition is [1, 2, 4]. *)
Theorem build_merge_positions_tx_partition (kwargs : gmap string pyarg) (t : list event) :
  build_merge_positions_tx api contract_address collateral_token parent_collection_id
    condition_id outcome_slot_count amount kwargs t
  = build_merge_positions_tx api contract_address collateral_token parent_collection_id
      condition_id outcome_slot_count amount ∅ t
  ∧ (∀ instance token,
       get_instance api contract_address = Returns instance →
       to_checksum_address api collateral_token = Returns token →
       let merge_args :=
         [ArgStr token; ArgBytes parent_collection_id; ArgBytes condition_id;
          ArgInts (get_partitions outcome_slot_count); ArgInt amount] in
       build_merge_positions_tx api contract_address collateral_token parent_collection_id
         condition_id outcome_slot_count amount kwargs t
       = (match encodeABI api instance "mergePositions" merge_args with
          | Returns data => Returns {[ "data" := JStr data ]}
          | Raises e => Raises e
          | Diverges => Diverges
          end,
          t ++ [EvGetInstance contract_address; EvToChecksum collateral_token;
                EvEncodeABI "mergePositions" merge_args]))
  ∧ get_partitions 3 = [1; 2; 4].
Proof.
  split; [reflexivity |]. split; [| reflexivity].
  intros instance token Hi Ht merge_args. unfold build_merge_positions_tx.
  unfold mbind, M_bind, call_get_instance, call_to_checksum, call_encodeABI, call.
  rewrite Hi, Ht. fold merge_args. rewrite <- !app_assoc. simpl.
  by destruct (encodeABI api instance "mergePositions" merge_args).
Qed.

End Merge.

(** C8 on the scripted client, three slots, with a caller who passes its
    own ordering along: the encoded partition is still [1, 2, 4]. *)
Lemma build_merge_positions_tx_partition_witness :
  build_merge_positions_tx scripted_api "0xC0" "0xT" (word32 x00) [xaa] 3 50
    {[ "partition" := ArgInts [4; 1; 2] ]} []
  = (Returns {[ "data" := JStr "0xmergePositions" ]},
     [EvGetInstance "0xC0"; EvToChecksum "0xT";
      EvEncodeABI "mergePositions"
        [ArgStr "0xT"; ArgBytes (word32 x00); ArgBytes [xaa]; ArgInts [1; 2; 4];
         ArgInt 50]]).
Proof.
  exact (proj1 (proj2 (build_merge_positions_tx_partition scripted_api "0xC0" "0xT"
           (word32 x00) [xaa] 3 50 {[ "partition" := ArgInts [4; 1; 2] ]} []))
           {| instance_address := "0xC0" |} "0xT" eq_refl eq_refl).
Defined.

(** ** Holdings *)

Lemma bind_call {A B} (ev : event) (o : outcome A) (k : A → M B) (t : list event) :
  (call ev o ≫= k) t =
    match o with
    | Returns a => k a (t ++ [ev])
    | Raises e => (Raises e, t ++ [ev])
    | Diverges => (Diverges, t ++ [ev])
    end.
Proof. unfold mbind, M_bind, call. by destruct o. Qed.

Section Holdings.
Context (api : LedgerApi) (contract_address : string) (instance : contract_instance).
Context (condition_id creator collateral_token market parent_collection_id : string).

Local Abbreviation calls := (holdings_calls api instance condition_id creator collateral_token
                     market parent_collection_id).
Local Abbreviation held := (market_balance api instance condition_id collateral_token market
                    parent_collection_id).
Local Abbreviation shared := (creator_balance api instance condition_id creator collateral_token
                      parent_collection_id).
Local Abbreviation step_returns := (holdings_step_returns api instance condition_id creator
                      collateral_token market parent_collection_id).
Local Abbreviation step_raises := (holdings_step_raises api instance condition_id creator
                      collateral_token market parent_collection_id).

(** One turn of the loop whose calls return. *)
Lemma holdings_loop_step (i : Z) (rest holdings shares : list Z) (t : list event) :
  step_returns i →
  holdings_loop api instance condition_id creator collateral_token market
    parent_collection_id (i :: rest) holdings shares t
  = holdings_loop api instance condition_id creator collateral_token market
      parent_collection_id rest (holdings ++ [held i]) (shares ++ [shared i])
      (t ++ calls i).
Proof.
  intros (raw & token & digest & market' & h & creator' & s
          & Hraw & Htoken & Hdigest & Hmarket & Hh & Hcreator & Hs).
  cbn [holdings_loop].
  unfold call_getCollectionId, call_to_checksum, call_solidity_keccak, call_balanceOf.
  unfold holdings_calls, market_balance, creator_balance, position_id_of,
    collection_id_of.
  rewrite bind_call, Hraw, bind_call, Htoken. cbn [returned].
  rewrite bind_call, Hdigest, bind_call, Hmarket. cbn [returned].
  rewrite bind_call, Hh, bind_call, Hcreator, bind_call, Hs. cbn [returned].
  rewrite ?Hh, ?Hs. cbn [returned].
  rewrite <- !app_assoc. reflexivity.
Qed.

(** The turns whose calls return, followed by the rest of the partition. *)
Lemma holdings_loop_app (done rest holdings shares : list Z) (t : list event) :
  Forall step_returns done →
  holdings_loop api instance condition_id creator collateral_token market
    parent_collection_id (done ++ rest) holdings shares t
  = holdings_loop api instance condition_id creator collateral_token market
      parent_collection_id rest (holdings ++ (held <$> done)) (shares ++ (shared <$> done))
      (t ++ (done ≫= calls)).
Proof.
  intros Hdone. revert holdings shares t.
  induction Hdone as [| i done Hi _ IH]; intros holdings shares t.
  - simpl. by rewrite !app_nil_r.
  - cbn [app]. rewrite (holdings_loop_step _ _ _ _ _ Hi), IH.
    cbn [fmap list_fmap mbind list_bind]. by rewrite <- !app_assoc.
Qed.

Lemma holdings_loop_run (partition holdings shares : list Z) (t : list event) :
  Forall step_returns partition →
  holdings_loop api instance condition_id creator collateral_token market
    parent_collection_id partition holdings shares t
  = (Returns (holdings ++ (held <$> partition), shares ++ (shared <$> partition)),
     t ++ (partition ≫= calls)).
Proof.
  intros Hall. rewrite <- (app_nil_r partition) at 1.
  by rewrite (holdings_loop_app _ _ _ _ _ Hall).
Qed.

(** A turn in which a call raises ends the loop with that exception. *)
Lemma holdings_loop_raises (i : Z) (rest holdings shares : list Z) (t : list event)
    (e : exn) :
  step_raises i e →
  (holdings_loop api instance condition_id creator collateral_token market
     parent_collection_id (i :: rest) holdings shares t).1 = Raises e.
Proof.
  cbn [holdings_loop].
  unfold call_getCollectionId, call_to_checksum, call_solidity_keccak, call_balanceOf.
  intros [H1 | (raw & Hraw & [H2 | (token & Htoken & [H3 | (digest & Hdigest &
           [H4 | (market' & Hmarket & [H5 | (h & Hh & [H6 | (creator' & Hcreator & H7)])])])])])].
  - by rewrite bind_call, H1.
  - by rewrite bind_call, Hraw, bind_call, H2.
  - by rewrite bind_call, Hraw, bind_call, Htoken, bind_call, H3.
  - by rewrite bind_call, Hraw, bind_call, Htoken, bind_call, Hdigest, bind_call, H4.
  - by rewrite bind_call, Hraw, bind_call, Htoken, bind_call, Hdigest, bind_call, Hmarket,
      bind_call, H5.
  - by rewrite bind_call, Hraw, bind_call, Htoken, bind_call, Hdigest, bind_call, Hmarket,
      bind_call, Hh, bind_call, H6.
  - by rewrite bind_call, Hraw, bind_call, Htoken, bind_call, Hdigest, bind_call, Hmarket,
      bind_call, Hh, bind_call, Hcreator, bind_call, H7.
Qed.

(** The first call that raises, after turns whose calls returned, decides
    the result of [get_user_holdings]. *)
Lemma get_user_holdings_raises (outcome_slot_count : Z) (t : list event)
    (done : list Z) (i : Z) (rest : list Z) (e : exn) :
  get_instance api contract_address = Returns instance →
  get_partitions outcome_slot_count = done ++ i :: rest →
  Forall step_returns done →
  step_raises i e →
  (get_user_holdings api contract_address outcome_slot_count condition_id creator
     collateral_token market parent_collection_id t).1 = Raises e.
Proof.
  intros Hi Hp Hdone He. unfold get_user_holdings, call_get_instance.
  rewrite bind_call, Hi. unfold mbind at 1, M_bind.
  rewrite Hp, (holdings_loop_app _ _ _ _ _ Hdone).
  pose proof (holdings_loop_raises i rest ([] ++ (held <$> done)) ([] ++ (shared <$> done))
                ((t ++ [EvGetInstance contract_address]) ++ (done ≫= calls)) e He) as Hl.
  destruct (holdings_loop _ _ _ _ _ _ _ _ _ _ _) as [o t']. simpl in Hl. by subst o.
Qed.

Lemma collection_id_calls_bind (partition : list Z) :
  collection_id_calls (partition ≫= calls) = partition.
Proof.
  induction partition as [| i rest IH]; [done |].
  cbn [mbind list_bind]. unfold collection_id_calls in *.
  rewrite omap_app. simpl. by rewrite IH.
Qed.

Lemma position_id_calls_bind (partition : list Z) :
  length (position_id_calls (partition ≫= calls)) = length partition.
Proof.
  induction partition as [| i rest IH]; [done |].
  cbn [mbind list_bind]. unfold position_id_calls in *.
  rewrite omap_app, length_app. simpl. by rewrite IH.
Qed.

Lemma balance_reads_bind (partition : list Z) :
  balance_reads (partition ≫= calls)
  = partition ≫= λ i,
      [(returned "" (to_checksum_address api market),
        position_id_of api instance condition_id collateral_token parent_collection_id i);
       (returned "" (to_checksum_address api creator),
        position_id_of api instance condition_id collateral_token parent_collection_id i)].
Proof.
  induction partition as [| i rest IH]; [done |].
  cbn [mbind list_bind]. unfold balance_reads in *.
  rewrite omap_app. simpl. by rewrite IH.
Qed.

(** C9. When the calls it makes return (the instance lookup, and for every
    element of the partition the seven calls of the loop body on the
    arguments the body hands them), [get_user_holdings] walks the
    partition in order and spends on each element one collection-id
    derivation, one position-id derivation and two balance reads, the
    market's and then the creator's; it returns [holdings] and [shares],
    the balances read, both as long as the partition, which has
    [outcome_slot_count] elements. *)
Theorem get_user_holdings_calls (outcome_slot_count : Z) (t : list event) :
  get_instance api contract_address = Returns instance →
  Forall step_returns (get_partitions outcome_slot_count) →
  ∃ holdings shares tr,
    get_user_holdings api contract_address outcome_slot_count condition_id creator
      collateral_token market parent_collection_id t
    = (Returns {[ "holdings" := JInts holdings; "shares" := JInts shares ]},
       t ++ EvGetInstance contract_address :: tr)
    ∧ tr = get_partitions outcome_slot_count ≫= calls
    ∧ holdings = held <$> get_partitions outcome_slot_count
    ∧ shares = shared <$> get_partitions outcome_slot_count
    ∧ length holdings = Z.to_nat outcome_slot_count
    ∧ length shares = Z.to_nat outcome_slot_count
    ∧ collection_id_calls tr = get_partitions outcome_slot_count
    ∧ length (position_id_calls tr) = Z.to_nat outcome_slot_count
    ∧ length (balance_reads tr) = (2 * Z.to_nat outcome_slot_count)%nat
    ∧ (balance_reads tr).*1
      = get_partitions outcome_slot_count ≫= λ _,
          [returned "" (to_checksum_address api market);
           returned "" (to_checksum_address api creator)].
Proof.
  intros Hi Hall.
  exists (held <$> get_partitions outcome_slot_count),
    (shared <$> get_partitions outcome_slot_count),
    (get_partitions outcome_slot_count ≫= calls).
  split.
  { unfold get_user_holdings, call_get_instance. rewrite bind_call, Hi.
    unfold mbind at 1, M_bind. rewrite (holdings_loop_run _ _ _ _ Hall).
    unfold mret, M_ret. by rewrite <- app_assoc. }
  clear Hall. repeat split.
  - by rewrite length_fmap, get_partitions_length.
  - by rewrite length_fmap, get_partitions_length.
  - apply collection_id_calls_bind.
  - by rewrite position_id_calls_bind, get_partitions_length.
  - rewrite balance_reads_bind, <- get_partitions_length.
    induction (get_partitions outcome_slot_count) as [| i l IH]; [done |].
    cbn [mbind list_bind]. rewrite length_app, IH. simpl. lia.
  - rewrite balance_reads_bind.
    induction (get_partitions outcome_slot_count) as [| i l IH]; [done |].
    cbn [mbind list_bind]. rewrite fmap_app, IH. done.
Qed.

End Holdings.

(** C9 on the scripted client with two outcome slots: two collection-id
    derivations, two position-id derivations, four balance reads, and two
    sequences of length two. *)
Lemma get_user_holdings_calls_witness :
  ∃ holdings shares tr,
    get_user_holdings scripted_api "0xC0" 2 "0xcond" "0xCreator" "0xT" "0xMarket" "0x00" []
    = (Returns {[ "holdings" := JInts holdings; "shares" := JInts shares ]},
       EvGetInstance "0xC0" :: tr)
    ∧ holdings = [10; 10] ∧ shares = [3; 3]
    ∧ collection_id_calls tr = [1; 2]
    ∧ length (position_id_calls tr) = 2%nat
    ∧ length (balance_reads tr) = 4%nat.
Proof.
  assert (∀ i, holdings_step_returns scripted_api {| instance_address := "0xC0" |}
                 "0xcond" "0xCreator" "0xT" "0xMarket" "0x00" i) as Hstep.
  { intros i. exists (word32 x01), "0xT", (word32 x07), "0xMarket", 10, "0xCreator", 3.
    repeat split. }
  destruct (get_user_holdings_calls scripted_api "0xC0" {| instance_address := "0xC0" |}
              "0xcond" "0xCreator" "0xT" "0xMarket" "0x00" 2 [] eq_refl
              (Forall_cons_2 _ _ _ (Hstep 1) (Forall_cons_2 _ _ _ (Hstep 2) (Forall_nil_2 _))))
    as (holdings & shares & tr & Hrun & _ & Hh & Hs & _ & _ & Hc & Hp & Hb & _).
  exists holdings, shares, tr.
  split; [exact Hrun |]. split; [exact Hh |]. split; [exact Hs |].
  split; [exact Hc |]. split; [exact Hp | exact Hb].
Defined.

(** ** The shape of the results *)

Section Results.
Context `{PyStrOf T} (rt : runtime) (api : LedgerApi) (contract_address : string).

Lemma get_partitions_head (n : Z) :
  0 < n → ∃ rest, get_partitions n = 1 :: rest.
Proof.
  intros Hn. unfold get_partitions, seqZ.
  destruct (Z.to_nat n) as [| k] eqn:Hk; [lia |]. simpl. by eexists.
Qed.

Lemma check_resolved_run (condition_id : bytes) (t : list event)
    (instance : contract_instance) :
  get_instance api contract_address = Returns instance →
  (check_resolved api contract_address condition_id t).1 =
    match payoutDenominator api instance condition_id with
    | Returns p => Returns {[ "resolved" := JBool (negb (p =? 0)) ]}
    | Raises e => Raises e
    | Diverges => Diverges
    end.
Proof.
  intros Hi. unfold check_resolved, call_get_instance, call_payoutDenominator.
  rewrite bind_call, Hi, bind_call.
  destruct (payoutDenominator api instance condition_id) as [p | e |]; try done.
  case_bool_decide as Hp.
  - subst p. done.
  - apply Z.eqb_neq in Hp. by rewrite Hp.
Qed.

Lemma get_user_holdings_shape (outcome_slot_count : Z)
    (condition_id creator collateral_token market parent_collection_id : string)
    (t : list event) (m : gmap string jval) :
  (get_user_holdings api contract_address outcome_slot_count condition_id creator
     collateral_token market parent_collection_id t).1 = Returns m →
  ∃ holdings shares, m = {[ "holdings" := JInts holdings; "shares" := JInts shares ]}.
Proof.
  unfold get_user_holdings, call_get_instance. rewrite bind_call.
  destruct (get_instance api contract_address) as [instance | e |]; [| done | done].
  unfold mbind, M_bind.
  destruct (holdings_loop _ _ _ _ _ _ _ _ _ _ _) as [[[holdings shares] | e |] t'];
    [| done | done].
  unfold mret, M_ret. simpl. intros [= <-]. by eexists _, _.
Qed.


End Results.



(** * Further properties of the contract wrapper *)

(** ** Hex encoding and decoding *)

Section Hex.

Lemma concat_empty_cons (x : string) (xs : list string) :
  String.concat "" (x :: xs) = x +:+ String.concat "" xs.
Proof.
  destruct xs as [| y ys]; [| done].
  induction x as [| c x IH]; [done |].
  change (String c x = String c (x +:+ String.concat "" [])). by rewrite <- IH.
Qed.

Lemma bytes_hex_cons (b : byte) (bs : bytes) :
  bytes_hex (b :: bs) = hex_of_byte b +:+ bytes_hex bs.
Proof. unfold bytes_hex. rewrite fmap_cons. apply concat_empty_cons. Qed.

(** The two characters a byte is written as are read back as that byte. *)
Lemma hex_of_byte_read_check (b : byte) :
  match hex_of_byte b with
  | String c1 (String c2 EmptyString) =>
      negb (is_space c1) &&
      match hex_digit_value c1, hex_digit_value c2 with
      | Some hi, Some lo => Byte.eqb (byte_of_nibbles hi lo) b
      | _, _ => false
      end
  | _ => false
  end = true.
Proof. destruct b; vm_compute; reflexivity. Qed.

Lemma hex_of_byte_read (b : byte) :
  ∃ c1 c2 hi lo,
    hex_of_byte b = String c1 (String c2 EmptyString)
    ∧ is_space c1 = false
    ∧ hex_digit_value c1 = Some hi ∧ hex_digit_value c2 = Some lo
    ∧ byte_of_nibbles hi lo = b.
Proof.
  pose proof (hex_of_byte_read_check b) as Hb. unfold hex_of_byte in *.
  cbv zeta in *. cbv iota in Hb.
  set (n := Byte.to_N b) in *.
  destruct (is_space (hex_char (n / 16))) eqn:Hs; [done |].
  destruct (hex_digit_value (hex_char (n / 16))) as [hi |] eqn:Hhi; [| done].
  destruct (hex_digit_value (hex_char (n `mod` 16))) as [lo |] eqn:Hlo; [| done].
  simpl in Hb. apply Byte.byte_dec_bl in Hb.
  by exists (hex_char (n / 16)), (hex_char (n `mod` 16)), hi, lo.
Qed.

Lemma bytes_fromhex_hex (b : bytes) : bytes_fromhex (bytes_hex b) = Returns b.
Proof.
  induction b as [| x b IH]; [done |].
  rewrite bytes_hex_cons.
  destruct (hex_of_byte_read x) as (c1 & c2 & hi & lo & -> & Hs & Hhi & Hlo & Hb).
  change (String c1 (String c2 "") +:+ bytes_hex b)
    with (String c1 (String c2 (bytes_hex b))).
  cbn [bytes_fromhex]. by rewrite Hs, Hhi, Hlo, IH, Hb.
Qed.

Lemma bytes_hex_length (b : bytes) : String.length (bytes_hex b) = (2 * length b)%nat.
Proof.
  induction b as [| x b IH]; [done |].
  rewrite bytes_hex_cons.
  destruct (hex_of_byte_read x) as (c1 & c2 & hi & lo & -> & _).
  change (String c1 (String c2 "") +:+ bytes_hex b)
    with (String c1 (String c2 (bytes_hex b))).
  cbn [String.length length]. rewrite IH. lia.
Qed.

(** [bytes.fromhex] undoes [bytes.hex], so the hex keys of the payout
    summary tell condition ids apart: two [bytes] ids stored under the same
    key are the same id, and the key of an id of [n] bytes has [2 n]
    characters. *)
Theorem payout_key_faithful (b1 b2 : bytes) :
  bytes_fromhex (payout_key (CidBytes b1)) = Returns b1
  ∧ (payout_key (CidBytes b1) = payout_key (CidBytes b2) → b1 = b2)
  ∧ String.length (payout_key (CidBytes b1)) = (2 * length b1)%nat.
Proof.
  split; [apply bytes_fromhex_hex |]. split; [| apply bytes_hex_length].
  simpl. intros Heq.
  pose proof (bytes_fromhex_hex b1) as H1. rewrite Heq, bytes_fromhex_hex in H1.
  by injection H1.
Qed.


End Hex.

(** ** More on the bounded executor *)

Section ExecutorEdges.
Context {A : Type} `{PyStrOf T} (rt : runtime).

(** An operation that raises within the deadline: a builtin [TimeoutError]
    of its own is reported exactly like a missed deadline, with no value
    and the synthetic message; every other exception reaches the caller
    as it is. *)
Theorem execute_with_timeout_raising_worker (func : M (pyval A)) (timeout : T)
    (t t' : list event) (e : exn) :
  func (t ++ [EvSubmit]) = (Raises e, t') →
  (e = TimeoutError →
     execute_with_timeout rt func true timeout t
     = (Returns (PyNone, Some ("The RPC didn't respond in " +:+ py_str timeout +:+ ".")), t'))
  ∧ (e ≠ TimeoutError → execute_with_timeout rt func true timeout t = (Raises e, t')).
Proof.
  intros Hf. unfold execute_with_timeout. rewrite Hf. simpl. split.
  - by intros ->.
  - intros He. by destruct e.
Qed.

End ExecutorEdges.

Lemma execute_with_timeout_raising_worker_witness :
  execute_with_timeout py311 (λ t, (Raises (A := pyval unit) TimeoutError, t)) true 5 []
  = (Returns (PyNone, Some "The RPC didn't respond in 5."), [EvSubmit])
  ∧ execute_with_timeout py311 (λ t, (Raises (A := pyval unit) ValueError, t)) true 5 []
    = (Raises ValueError, [EvSubmit]).
Proof.
  split.
  - exact (proj1 (execute_with_timeout_raising_worker (A := unit) py311
             (λ t, (Raises TimeoutError, t)) 5 [] [EvSubmit] TimeoutError eq_refl) eq_refl).
  - exact (proj2 (execute_with_timeout_raising_worker (A := unit) py311
             (λ t, (Raises ValueError, t)) 5 [] [EvSubmit] ValueError eq_refl)
             ltac:(discriminate)).
Defined.

(** ** More on the redemption aggregator *)

Section RedeemedMore.

Lemma record_redeeming_union (m base : gmap string Z) (e : log_entry) :
  record_redeeming (m ∪ base) e = record_redeeming m e ∪ base.
Proof.
  rewrite !record_redeeming_credited.
  destruct (credited e) as [[k p] |]; [| done]. by rewrite insert_union_l.
Qed.

Lemma fold_left_record_union (l : list log_entry) (base : gmap string Z) :
  fold_left record_redeeming l base = fold_payouts l ∪ base.
Proof.
  induction l as [| e l IH] using rev_ind.
  - unfold fold_payouts. simpl. by rewrite (left_id_L ∅ (∪)).
  - rewrite fold_payouts_snoc, fold_left_app. simpl.
    by rewrite IH, record_redeeming_union.
Qed.

(** Summaries compose over batches: the summary of two logs read one after
    the other is the summary of the later log laid over the summary of the
    earlier one, the later log winning on every key both hold. *)
Theorem fold_payouts_app (earlier later : list log_entry) :
  fold_payouts (earlier ++ later) = fold_payouts later ∪ fold_payouts earlier
  ∧ (∀ k v, fold_payouts later !! k = Some v → fold_payouts (earlier ++ later) !! k = Some v)
  ∧ (∀ k, fold_payouts later !! k = None →
       fold_payouts (earlier ++ later) !! k = fold_payouts earlier !! k).
Proof.
  assert (fold_payouts (earlier ++ later) = fold_payouts later ∪ fold_payouts earlier)
    as Happ.
  { unfold fold_payouts at 1. rewrite fold_left_app. apply fold_left_record_union. }
  split; [exact Happ |]. rewrite Happ. split.
  - intros k v Hk. by apply lookup_union_Some_l.
  - intros k Hk. by rewrite lookup_union_r.
Qed.

(** What the summary holds: every payout in it is strictly positive, and a
    key is in it exactly when some entry of the log carries that condition
    id with a strictly positive payout. *)
Theorem fold_payouts_positive (l : list log_entry) (k : string) :
  (∀ v, fold_payouts l !! k = Some v → 0 < v)
  ∧ (is_Some (fold_payouts l !! k) ↔ Exists (credits k) l).
Proof.
  split.
  - intros v Hv. apply fold_payouts_last_credit in Hv as (l1 & e & l2 & _ & He & _).
    unfold credited in He.
    destruct (args e) as [a |]; [| done]. simpl in He.
    destruct (conditionId a); [| done]. simpl in He.
    destruct (payout a) as [p |]; [| done]. simpl in He.
    case_bool_decide; [| done]. by injection He as _ <-.
  - split.
    + intros [v Hv]. apply fold_payouts_last_credit in Hv as (l1 & e & l2 & -> & He & _).
      apply Exists_app. right. constructor. by exists v.
    + intros Hex. induction l as [| e l IH] using rev_ind.
      * by apply Exists_nil in Hex.
      * rewrite fold_payouts_snoc, record_redeeming_credited.
        destruct (credited e) as [[k' p] |] eqn:He.
        -- destruct (decide (k' = k)) as [-> | Hne].
           ++ rewrite lookup_insert_eq. by eexists.
           ++ rewrite lookup_insert_ne by done. apply IH.
              apply Exists_app in Hex as [Hex | Hex]; [done |].
              apply Exists_cons in Hex as [[v Hv] | Hex]; [congruence |].
              by apply Exists_nil in Hex.
        -- apply IH. apply Exists_app in Hex as [Hex | Hex]; [done |].
           apply Exists_cons in Hex as [[v Hv] | Hex]; [congruence |].
           by apply Exists_nil in Hex.
Qed.

(** Entries that count for nothing: one without [args], without
    [conditionId], without [payout], or with a payout of zero or less can
    be taken out of the log, wherever it stands, without changing the
    summary. *)
Theorem fold_payouts_ignores (before after : list log_entry) (e : log_entry) :
  (args e = None
   ∨ ∃ a, args e = Some a
          ∧ (conditionId a = None ∨ payout a = None ∨ ∃ p, payout a = Some p ∧ p ≤ 0)) →
  fold_payouts (before ++ e :: after) = fold_payouts (before ++ after).
Proof.
  intros He. apply fold_payouts_skip. unfold credited.
  destruct He as [-> | (a & -> & Ha)]; [done |]. simpl.
  destruct (conditionId a) as [c |]; [| done]. simpl.
  destruct Ha as [Hc | [-> | (p & -> & Hp)]]; [done | done |]. simpl.
  case_bool_decide; [exfalso; lia | done].
Qed.

Lemma fold_payouts_ignores_witness :
  fold_payouts [redemption (CidBytes [xaa]) 5; redemption (CidBytes [xbb]) (-3);
                redemption (CidBytes [xaa]) 7]
  = fold_payouts [redemption (CidBytes [xaa]) 5; redemption (CidBytes [xaa]) 7].
Proof.
  apply (fold_payouts_ignores [redemption (CidBytes [xaa]) 5]
           [redemption (CidBytes [xaa]) 7] (redemption (CidBytes [xbb]) (-3))).
  right. eexists. split; [reflexivity |]. right. right.
  exists (-3). split; [reflexivity | lia].
Defined.

End RedeemedMore.

Section RedeemedLate.
Context `{PyStrOf T} (rt : runtime) (api : LedgerApi).
Context (contract_address redeemer : string) (from_block to_block : Z).
Context (collateral_tokens : list string) (parent_collection_ids condition_ids : list bytes).
Context (index_sets : list (list Z)) (timeout : T) (t : list event).

(** Past the deadline nothing the query found is used: where the futures
    timeout is the builtin [TimeoutError] and the worker does finish,
    [check_redeemed] answers with the single [error] field naming the
    timeout, whatever entries, error or exception the worker ended with. *)
Theorem check_redeemed_past_deadline :
  futures_timeout_is_builtin rt = true →
  (get_redeem_events api contract_address redeemer from_block to_block collateral_tokens
     parent_collection_ids condition_ids index_sets (t ++ [EvSubmit])).1 ≠ Diverges →
  (check_redeemed rt api contract_address redeemer from_block to_block collateral_tokens
     parent_collection_ids condition_ids index_sets timeout false t).1
  = Returns {[ "error" := JStr ("The RPC didn't respond in " +:+ py_str timeout +:+ ".") ]}.
Proof.
  intros Hrt Hw. unfold check_redeemed, execute_with_timeout. unfold mbind at 1, M_bind.
  destruct (get_redeem_events _ _ _ _ _ _ _ _ _ _) as [w t'].
  simpl in Hw. unfold future_result, deadline_exn. rewrite Hrt.
  by destruct w.
Qed.

End RedeemedLate.

Lemma check_redeemed_past_deadline_witness :
  (check_redeemed py311 scripted_api "0xC0" "0xR" 100 200 ["0xT"] [word32 x00]
     [[xaa]; [xbb]] [[1; 2]] 300 false []).1
  = Returns {[ "error" := JStr "The RPC didn't respond in 300." ]}.
Proof.
  exact (check_redeemed_past_deadline py311 scripted_api "0xC0" "0xR" 100 200 ["0xT"]
           [word32 x00] [[xaa]; [xbb]] [[1; 2]] 300 [] eq_refl ltac:(discriminate)).
Defined.

(** ** More on partitions *)

Section PartitionsMore.

Lemma get_partitions_lookup_inv (n : Z) (i : nat) (x : Z) :
  get_partitions n !! i = Some x → x = 2 ^ Z.of_nat i ∧ Z.of_nat i < n.
Proof.
  unfold get_partitions. rewrite list_lookup_fmap.
  destruct (seqZ 0 n !! i) as [k |] eqn:Hk; [| done].
  apply lookup_seqZ in Hk as [-> Hi]. simpl. intros [= <-].
  by rewrite Z.add_0_l, Z.shiftl_1_l.
Qed.

(** The elements of [get_partitions n] are index sets that do not
    overlap: two elements at different places share no bit. They stand in
    strictly ascending order, and the partition for fewer slots is the
    beginning of the partition for more. *)
Theorem get_partitions_disjoint_ascending (n : Z) :
  (∀ (i j : nat) x y, i ≠ j →
     get_partitions n !! i = Some x → get_partitions n !! j = Some y → Z.land x y = 0)
  ∧ (∀ (i j : nat) x y, (i < j)%nat →
       get_partitions n !! i = Some x → get_partitions n !! j = Some y → x < y)
  ∧ (∀ m, m ≤ n → get_partitions m `prefix_of` get_partitions n).
Proof.
  split; [| split].
  - intros i j x y Hij Hx Hy.
    apply get_partitions_lookup_inv in Hx as [-> _], Hy as [-> _].
    apply Z.bits_inj'. intros b Hb.
    rewrite Z.land_spec, Z.bits_0, !Z.pow2_bits_eqb by lia.
    destruct (Z.eqb_spec (Z.of_nat i) b), (Z.eqb_spec (Z.of_nat j) b); simpl;
      try reflexivity; lia.
  - intros i j x y Hij Hx Hy.
    apply get_partitions_lookup_inv in Hx as [-> _], Hy as [-> _].
    apply Z.pow_lt_mono_r; lia.
  - intros m Hm. unfold get_partitions.
    destruct (decide (0 ≤ m)) as [Hpos | Hneg].
    + replace n with (m + (n - m)) by lia. rewrite seqZ_app by lia.
      rewrite fmap_app. by apply prefix_app_r.
    + unfold seqZ at 1. replace (Z.to_nat m) with 0%nat by lia. apply prefix_nil.
Qed.

End PartitionsMore.

(** ** More on holdings *)

Section HoldingsMore.
Context (api : LedgerApi) (contract_address : string) (instance : contract_instance).
Context (condition_id creator collateral_token market parent_collection_id : string).

(** Without slots there is nothing to read: for a slot count of zero or
    less, [get_user_holdings] fetches the instance, makes no other call and
    returns two empty sequences. *)
Theorem get_user_holdings_no_slots (outcome_slot_count : Z) (t : list event) :
  outcome_slot_count ≤ 0 →
  get_instance api contract_address = Returns instance →
  get_user_holdings api contract_address outcome_slot_count condition_id creator
    collateral_token market parent_collection_id t
  = (Returns {[ "holdings" := JInts []; "shares" := JInts [] ]},
     t ++ [EvGetInstance contract_address]).
Proof.
  intros Hn Hi. unfold get_user_holdings, call_get_instance.
  rewrite bind_call, Hi.
  replace (get_partitions outcome_slot_count) with (@nil Z); [done |].
  unfold get_partitions, seqZ. by replace (Z.to_nat outcome_slot_count) with 0%nat by lia.
Qed.

Lemma int_from_bytes_big_snoc (b : bytes) (x : byte) :
  int_from_bytes_big (b ++ [x]) = int_from_bytes_big b * 256 + Z.of_N (Byte.to_N x).
Proof. unfold int_from_bytes_big. by rewrite fold_left_app. Qed.

Lemma int_from_bytes_big_range (b : bytes) :
  0 ≤ int_from_bytes_big b < 256 ^ Z.of_nat (length b).
Proof.
  induction b as [| x b IH] using rev_ind; [done |].
  rewrite int_from_bytes_big_snoc, length_app. simpl length.
  replace (Z.of_nat (length b + 1)) with (Z.of_nat (length b) + 1) by lia.
  rewrite Z.pow_add_r by lia.
  pose proof (Byte.to_N_bounded x) as Hx.
  assert (0 ≤ Z.of_N (Byte.to_N x) < 256) by lia. lia.
Qed.

(** Every position id whose balance is read fits a [uint256]: when the
    calls [get_user_holdings] makes return and the digests the hasher
    returns to them have 32 bytes, each [balanceOf] call is made for a
    position id in [0, 2^256). *)
Theorem get_user_holdings_position_ids (outcome_slot_count : Z) (owner : string) (p : Z) :
  get_instance api contract_address = Returns instance →
  Forall (holdings_step_returns api instance condition_id creator collateral_token market
            parent_collection_id) (get_partitions outcome_slot_count) →
  (∀ i raw token digest,
     i ∈ get_partitions outcome_slot_count →
     getCollectionId api instance parent_collection_id condition_id i = Returns raw →
     to_checksum_address api collateral_token = Returns token →
     solidity_keccak api ["address"; "uint256"]
       [ArgStr token; ArgInt (int_from_bytes_big raw)] = Returns digest →
     length digest = 32%nat) →
  EvBalanceOf owner p ∈
    (get_user_holdings api contract_address outcome_slot_count condition_id creator
       collateral_token market parent_collection_id []).2 →
  0 ≤ p < 2 ^ 256.
Proof.
  intros Hi Hall Hlen.
  unfold get_user_holdings, call_get_instance. rewrite bind_call, Hi.
  unfold mbind at 1, M_bind.
  rewrite (holdings_loop_run api instance condition_id creator collateral_token market
             parent_collection_id _ _ _ _ Hall).
  unfold mret, M_ret. simpl.
  intros Hin. apply elem_of_cons in Hin as [[=] | Hin].
  apply list_elem_of_bind in Hin as (i & Hin & Hpart).
  assert (0 ≤ position_id_of api instance condition_id collateral_token
                 parent_collection_id i < 2 ^ 256) as Hrange.
  { rewrite list.Forall_forall in Hall.
    destruct (Hall i Hpart) as (raw & token & digest & market' & h & creator' & s
                                & Hraw & Htoken & Hdigest & _).
    unfold position_id_of, collection_id_of. rewrite Htoken, Hraw. cbn [returned].
    rewrite Hdigest. cbn [returned].
    pose proof (int_from_bytes_big_range digest) as Hd.
    rewrite (Hlen i raw token digest Hpart Hraw Htoken Hdigest) in Hd. exact Hd. }
  unfold holdings_calls in Hin.
  repeat (apply elem_of_cons in Hin as [Hin | Hin]; [try discriminate Hin |]).
  - by injection Hin as _ ->.
  - by injection Hin as _ ->.
  - by apply elem_of_nil in Hin.
Qed.

End HoldingsMore.

Lemma get_user_holdings_no_slots_witness :
  get_user_holdings scripted_api "0xC0" (-1) "0xcond" "0xCreator" "0xT" "0xMarket" "0x00" []
  = (Returns {[ "holdings" := JInts []; "shares" := JInts [] ]}, [EvGetInstance "0xC0"]).
Proof.
  exact (get_user_holdings_no_slots scripted_api "0xC0" {| instance_address := "0xC0" |}
           "0xcond" "0xCreator" "0xT" "0xMarket" "0x00" (-1) [] ltac:(lia) eq_refl).
Defined.

Lemma get_user_holdings_position_ids_witness : 0 ≤ 7 < 2 ^ 256.
Proof.
  assert (∀ i, holdings_step_returns scripted_api {| instance_address := "0xC0" |}
                 "0xcond" "0xCreator" "0xT" "0xMarket" "0x00" i) as Hstep.
  { intros i. exists (word32 x01), "0xT", (word32 x07), "0xMarket", 10, "0xCreator", 3.
    repeat split. }
  apply (get_user_holdings_position_ids scripted_api "0xC0" {| instance_address := "0xC0" |}
           "0xcond" "0xCreator" "0xT" "0xMarket" "0x00" 2 "0xMarket" 7 eq_refl
           (Forall_cons_2 _ _ _ (Hstep 1) (Forall_cons_2 _ _ _ (Hstep 2) (Forall_nil_2 _)))).
  - intros i raw token digest _ _ _ [= <-]. reflexivity.
  - vm_compute. set_solver.
Defined.

(** ** Condition preparation *)

Section Preparation.
Context (api : LedgerApi) (contract_address : string) (instance : contract_instance).

(** [get_prepare_condition_tx_data] hands back the call data as raw bytes:
    when the encoder answers with ["0x"] followed by the hex of [payload],
    the result maps ["data"] to [payload] itself; when what follows the
    first two characters is not hex, the call fails with [ValueError]. *)
Theorem get_prepare_condition_tx_data_decodes
    (encode : contract_instance → string → gmap string pyarg → outcome string)
    (question_id oracle_contract oracle : string) (outcome_slot_count : Z) (encoded : string) :
  to_checksum_address api oracle_contract = Returns oracle →
  get_instance api contract_address = Returns instance →
  encode instance "prepareCondition"
    {[ "oracle" := ArgStr oracle; "questionId" := ArgStr question_id;
       "outcomeSlotCount" := ArgInt outcome_slot_count ]} = Returns encoded →
  (∀ payload, encoded = "0x" +:+ bytes_hex payload →
     get_prepare_condition_tx_data api encode contract_address question_id oracle_contract
       outcome_slot_count = Returns {[ "data" := payload ]})
  ∧ ((∀ payload, bytes_fromhex (str_from_2 encoded) ≠ Returns payload) →
       get_prepare_condition_tx_data api encode contract_address question_id oracle_contract
         outcome_slot_count = Raises ValueError).
Proof.
  intros Ho Hi He. unfold get_prepare_condition_tx_data.
  rewrite Ho. cbn [mbind outcome_bind]. rewrite Hi. cbn [mbind outcome_bind].
  rewrite He. cbn [mbind outcome_bind]. split.
  - intros payload ->.
    change (str_from_2 ("0x" +:+ bytes_hex payload)) with (bytes_hex payload).
    by rewrite bytes_fromhex_hex.
  - intros Hbad.
    destruct (bytes_fromhex_outcome (str_from_2 encoded)) as [[b Hb] | ->]; [| done].
    by destruct (Hbad b).
Qed.

(** [get_condition_id] answers only for a receipt with exactly one
    [ConditionPreparation] log: then it returns ["0x"] followed by the hex
    of the logged id, a string of [2 + 2 n] characters for an id of [n]
    bytes, from which [bytes.fromhex(s[2:])] gives the id back. With no
    such log, or with more than one, it fails with [ValueError]. *)
Theorem get_condition_id_single_log
    (receipt_logs : contract_instance → string → outcome (list preparation_log))
    (tx_digest : string) (logs : list preparation_log) :
  get_instance api contract_address = Returns instance →
  receipt_logs instance tx_digest = Returns logs →
  (∀ log, logs = [log] →
     ∃ s, get_condition_id api receipt_logs contract_address tx_digest = Returns s
          ∧ s = "0x" +:+ bytes_hex (log_conditionId log)
          ∧ String.length s = (2 + 2 * length (log_conditionId log))%nat
          ∧ bytes_fromhex (str_from_2 s) = Returns (log_conditionId log))
  ∧ (length logs ≠ 1%nat →
       get_condition_id api receipt_logs contract_address tx_digest = Raises ValueError).
Proof.
  intros Hi Hl. unfold get_condition_id.
  rewrite Hi. cbn [mbind outcome_bind]. rewrite Hl. cbn [mbind outcome_bind]. split.
  - intros log ->. eexists. split; [reflexivity |]. split; [reflexivity |].
    change (str_from_2 ("0x" +:+ bytes_hex (log_conditionId log)))
      with (bytes_hex (log_conditionId log)).
    change ("0x" +:+ bytes_hex (log_conditionId log))
      with (String "0" (String "x" (bytes_hex (log_conditionId log)))).
    cbn [String.length]. rewrite bytes_hex_length. split; [lia | apply bytes_fromhex_hex].
  - intros Hlen. by destruct logs as [| l1 [| l2 rest]].
Qed.

(** The first two characters of a question id are dropped unread. A
    question id written as ["0x"] and the hex of [question] is hashed as
    [question]; written without the prefix, as the bare hex of
    [x :: question], it loses its first byte and gives the very same
    result. *)
Theorem calculate_condition_id_drops_two_chars
    (oracle_contract oracle : string) (outcome_slot_count : Z) (t : list event)
    (x : byte) (question : bytes) :
  to_checksum_address api oracle_contract = Returns oracle →
  calculate_condition_id api contract_address oracle_contract ("0x" +:+ bytes_hex question)
    outcome_slot_count t
  = (match solidity_keccak api ["address"; "bytes32"; "uint256"]
             [ArgStr oracle; ArgBytes question; ArgInt outcome_slot_count] with
     | Returns digest => Returns {[ "condition_id" := JStr (hexbytes_hex api digest) ]}
     | Raises e => Raises e
     | Diverges => Diverges
     end,
     t ++ [EvToChecksum oracle_contract;
           EvSolidityKeccak ["address"; "bytes32"; "uint256"]
             [ArgStr oracle; ArgBytes question; ArgInt outcome_slot_count]])
  ∧ calculate_condition_id api contract_address oracle_contract (bytes_hex (x :: question))
      outcome_slot_count t
    = calculate_condition_id api contract_address oracle_contract
        ("0x" +:+ bytes_hex question) outcome_slot_count t.
Proof.
  intros Ho.
  assert (str_from_2 (bytes_hex (x :: question)) = bytes_hex question) as Hdrop.
  { rewrite bytes_hex_cons.
    by destruct (hex_of_byte_read x) as (c1 & c2 & hi & lo & -> & _). }
  split.
  - unfold calculate_condition_id, call_to_checksum, call_solidity_keccak.
    rewrite bind_call, Ho. unfold mbind at 1, M_bind.
    change (str_from_2 ("0x" +:+ bytes_hex question)) with (bytes_hex question).
    rewrite bytes_fromhex_hex, bind_call, <- app_assoc. simpl.
    by destruct (solidity_keccak api _ _).
  - unfold calculate_condition_id. rewrite Hdrop. reflexivity.
Qed.

End Preparation.

Lemma get_prepare_condition_tx_data_decodes_witness :
  get_prepare_condition_tx_data scripted_api (λ _ _ _, Returns "0xab01") "0xC0"
    "0x00" "0x01" 2 = Returns {[ "data" := [xab; x01] ]}.
Proof.
  exact (proj1 (get_prepare_condition_tx_data_decodes scripted_api "0xC0"
           {| instance_address := "0xC0" |} (λ _ _ _, Returns "0xab01") "0x00" "0x01" "0x01"
           2 "0xab01" eq_refl eq_refl eq_refl) [xab; x01] eq_refl).
Defined.

Lemma get_condition_id_single_log_witness :
  get_condition_id scripted_api (λ _ _, Returns []) "0xC0" "0xtx" = Raises ValueError.
Proof.
  exact (proj2 (get_condition_id_single_log scripted_api "0xC0"
           {| instance_address := "0xC0" |} (λ _ _, Returns []) "0xtx" [] eq_refl eq_refl)
           ltac:(discriminate)).
Defined.

Lemma calculate_condition_id_drops_two_chars_witness :
  calculate_condition_id scripted_api "0xC0" "0x01" "ff00" 2 []
  = calculate_condition_id scripted_api "0xC0" "0x01" "0x00" 2 [].
Proof.
  exact (proj2 (calculate_condition_id_drops_two_chars scripted_api "0xC0" "0x01" "0x01" 2
           [] xff [x00] eq_refl)).
Defined.

(** * Properties of the bets *)

Section BetsFacts.
Context {float : Type}.
Implicit Types (b : Bets.Bet float).

Lemma post_init_outcomes b b' :
  Bets.post_init b = Bets.Ok b' →
  Bets.outcomes b' = if Bets.outcomes_rejected b then Bets.OutcomesNone else Bets.outcomes b.
Proof.
  unfold Bets.post_init. intros Hp.
  destruct (Bets.outcomes_rejected b);
    destruct (Bets.status _) as [s | v];
    try destruct (Bets.BetStatus_of_value v);
    try discriminate; by injection Hp as <-.
Qed.

Lemma post_init_frame b b' :
  Bets.post_init b = Bets.Ok b' →
  Bets.outcomeTokenAmounts b' = Bets.outcomeTokenAmounts b
  ∧ Bets.outcomeTokenMarginalPrices b' = Bets.outcomeTokenMarginalPrices b
  ∧ Bets.outcomeSlotCount b' = Bets.outcomeSlotCount b.
Proof.
  unfold Bets.post_init. intros Hp.
  destruct (Bets.outcomes_rejected b);
    destruct (Bets.status _) as [s | v];
    try destruct (Bets.BetStatus_of_value v);
    try discriminate; by injection Hp as <-.
Qed.

(** [__post_init__] keeps a list of outcomes as soon as one neighbouring
    pair of the chain agrees: the list is as long as the token amounts, or
    the amounts are as many as the prices, or the prices as many as the
    slots. It resets the list to [None] only when all three pairs differ;
    a list as long as the amounts is kept whatever the prices and the slot
    count are. *)
Theorem post_init_keeps_outcomes b b' (l : list string) :
  Bets.post_init b = Bets.Ok b' →
  Bets.outcomes b = Bets.OutcomesList l →
  (Bets.outcomes b' = Bets.OutcomesList l
   ↔ length l = length (Bets.outcomeTokenAmounts b)
     ∨ length (Bets.outcomeTokenAmounts b) = length (Bets.outcomeTokenMarginalPrices b)
     ∨ Z.of_nat (length (Bets.outcomeTokenMarginalPrices b)) = Bets.outcomeSlotCount b)
  ∧ (Bets.outcomes b' ≠ Bets.OutcomesList l → Bets.outcomes b' = Bets.OutcomesNone).
Proof.
  intros Hp Hl. rewrite (post_init_outcomes _ _ Hp).
  unfold Bets.outcomes_rejected, Bets.lengths_chain. rewrite Hl.
  destruct (Nat.eqb_spec (length l) (length (Bets.outcomeTokenAmounts b)));
    destruct (Nat.eqb_spec (length (Bets.outcomeTokenAmounts b))
                (length (Bets.outcomeTokenMarginalPrices b)));
    destruct (Z.eqb_spec (Z.of_nat (length (Bets.outcomeTokenMarginalPrices b)))
                (Bets.outcomeSlotCount b));
    simpl; intuition congruence.
Qed.

Lemma post_init_settled b b' :
  Bets.post_init b = Bets.Ok b' →
  Bets.post_init b' = Bets.Ok b' ∧ ∃ s, Bets.status b' = Bets.StatusMember s.
Proof.
  intros Hp.
  pose proof (post_init_outcomes _ _ Hp) as Ho.
  destruct (post_init_frame _ _ Hp) as (Ha & Hm & Hn).
  assert (∃ s, Bets.status b' = Bets.StatusMember s) as [s Hs].
  { revert Hp. unfold Bets.post_init.
    destruct (Bets.outcomes_rejected b);
      destruct (Bets.status _) as [s | v] eqn:Hst;
      try destruct (Bets.BetStatus_of_value v);
      try discriminate; intros [= <-]; by eexists. }
  split; [| by exists s].
  assert (Bets.outcomes_rejected b' = true → Bets.outcomes b' = Bets.OutcomesNone) as Hrej.
  { unfold Bets.outcomes_rejected, Bets.lengths_chain in *. rewrite Ha, Hm, Hn.
    rewrite Ho. destruct (Bets.outcomes b) as [| o | l]; [done | |].
    - destruct (String.eqb o "null" || _) eqn:Hc; [done |]. by rewrite Hc.
    - destruct (negb _ && _ && _) eqn:Hc; [done |]. by rewrite Hc. }
  unfold Bets.post_init.
  destruct (Bets.outcomes_rejected b') eqn:Hr.
  - specialize (Hrej eq_refl).
    replace (Bets.set_outcomes b' Bets.OutcomesNone) with b'.
    + by rewrite Hs.
    + clear -Hrej. destruct b'. simpl in Hrej. by subst.
  - by rewrite Hs.
Qed.

(** [__post_init__] settles a bet: run again on its own result it changes
    nothing, and the status of the result is always a member of
    [BetStatus], never an integer. *)
Theorem post_init_idempotent b b' :
  Bets.post_init b = Bets.Ok b' →
  Bets.post_init b' = Bets.Ok b' ∧ ∃ s, Bets.status b' = Bets.StatusMember s.
Proof. apply post_init_settled. Qed.

(** Encoding and decoding agree on the status: [BetStatus] of a member's
    value is that member, so a bet that went through [__post_init__],
    written with its status as the member's integer and built again from
    the written fields, is the same bet. An integer outside 1, 2, 3 is
    refused with [ValueError]. *)
Theorem decode_encoded_round_trip b b' :
  Bets.post_init b = Bets.Ok b' →
  Bets.decode_encoded b' = Bets.Ok b'
  ∧ (∀ s, Bets.BetStatus_of_value (Bets.BetStatus_value s) = Some s)
  ∧ (∀ v, ¬ (1 ≤ v ≤ 3) →
       Bets.post_init (Bets.set_status b (Bets.StatusInt v)) = Bets.Raised Bets.RaisedValueError).
Proof.
  intros Hp. destruct (post_init_settled _ _ Hp) as [Hidem [s Hs]].
  split; [| split].
  - unfold Bets.decode_encoded, Bets.encoded_status. rewrite Hs.
    revert Hidem. unfold Bets.post_init.
    replace (Bets.outcomes_rejected (Bets.set_status b' (Bets.StatusInt (Bets.BetStatus_value s))))
      with (Bets.outcomes_rejected b') by (by destruct b').
    destruct (Bets.outcomes_rejected b').
    + cbn [Bets.status Bets.set_outcomes Bets.set_status]. rewrite Hs.
      replace (Bets.BetStatus_of_value (Bets.BetStatus_value s)) with (Some s)
        by (by destruct s).
      intros [= Heq]. f_equal. rewrite <- Heq at 2.
      clear -Hs. destruct b'. simpl in Hs. by subst.
    + cbn [Bets.status Bets.set_status]. rewrite Hs.
      replace (Bets.BetStatus_of_value (Bets.BetStatus_value s)) with (Some s)
        by (by destruct s).
      intros _. f_equal. clear -Hs. destruct b'. simpl in Hs. by subst.
  - by intros [].
  - intros v Hv. unfold Bets.post_init.
    assert (Bets.BetStatus_of_value v = None) as Hnone.
    { unfold Bets.BetStatus_of_value.
      destruct (Z.eqb_spec v 1), (Z.eqb_spec v 2), (Z.eqb_spec v 3); try lia. done. }
    destruct (Bets.outcomes_rejected _); cbn [Bets.status Bets.set_outcomes Bets.set_status];
      by rewrite Hnone.
Qed.

Lemma py_index_spec {A} (l : list A) (index : Z) :
  (0 ≤ index < Z.of_nat (length l) → Bets.py_index l index = l !! Z.to_nat index)
  ∧ (- Z.of_nat (length l) ≤ index < 0 →
       Bets.py_index l index = l !! Z.to_nat (Z.of_nat (length l) + index))
  ∧ (index < - Z.of_nat (length l) ∨ Z.of_nat (length l) ≤ index →
       Bets.py_index l index = None).
Proof.
  unfold Bets.py_index. repeat split.
  - intros Hi. by destruct (Z.leb_spec 0 index); [| lia].
  - intros Hi. destruct (Z.leb_spec 0 index); [lia |].
    by destruct (Z.leb_spec (- Z.of_nat (length l)) index); [| lia].
  - intros Hi. destruct (Z.leb_spec 0 index).
    + apply lookup_ge_None. lia.
    + by destruct (Z.leb_spec (- Z.of_nat (length l)) index); [lia |].
Qed.

(** [get_outcome] on a bet that has a list of outcomes: an index from 0
    up to the length picks that element, a negative index down to minus
    the length counts from the end, and any other index raises
    [IndexError], which the method's [except KeyError] does not turn into
    a [ValueError]. Without outcomes it raises [ValueError]. *)
Theorem get_outcome_index b (l : list string) (index : Z) :
  Bets.outcomes b = Bets.OutcomesList l →
  (0 ≤ index < Z.of_nat (length l) →
     ∃ o, l !! Z.to_nat index = Some o ∧ Bets.get_outcome b index = Bets.Ok o)
  ∧ (- Z.of_nat (length l) ≤ index < 0 →
       ∃ o, l !! Z.to_nat (Z.of_nat (length l) + index) = Some o
            ∧ Bets.get_outcome b index = Bets.Ok o)
  ∧ (index < - Z.of_nat (length l) ∨ Z.of_nat (length l) ≤ index →
       Bets.get_outcome b index = Bets.Raised Bets.RaisedIndexError)
  ∧ Bets.get_outcome (Bets.set_outcomes b Bets.OutcomesNone) index
    = Bets.Raised Bets.RaisedValueError.
Proof.
  intros Hl. unfold Bets.get_outcome. rewrite Hl.
  destruct (py_index_spec l index) as (Hpos & Hneg & Hout).
  repeat split.
  - intros Hi. rewrite (Hpos Hi).
    destruct (lookup_lt_is_Some_2 l (Z.to_nat index) ltac:(lia)) as [o Ho].
    exists o. by rewrite Ho.
  - intros Hi. rewrite (Hneg Hi).
    destruct (lookup_lt_is_Some_2 l (Z.to_nat (Z.of_nat (length l) + index)) ltac:(lia))
      as [o Ho].
    exists o. by rewrite Ho.
  - intros Hi. by rewrite (Hout Hi).
Qed.

(** [yes] and [no] exist for binary questions only. With two slots and a
    list of outcomes, [yes] is the first outcome and [no] the second, and
    a list too short for that raises [IndexError]; with any other slot
    count both raise [ValueError], whatever the outcomes are. *)
Theorem yes_no_binary b (l : list string) :
  Bets.outcomes b = Bets.OutcomesList l →
  (Bets.outcomeSlotCount b = 2 →
     Bets.yes b = match l !! 0%nat with
                  | Some o => Bets.Ok o
                  | None => Bets.Raised Bets.RaisedIndexError
                  end
     ∧ Bets.no b = match l !! 1%nat with
                   | Some o => Bets.Ok o
                   | None => Bets.Raised Bets.RaisedIndexError
                   end)
  ∧ (Bets.outcomeSlotCount b ≠ 2 →
       Bets.yes b = Bets.Raised Bets.RaisedValueError
       ∧ Bets.no b = Bets.Raised Bets.RaisedValueError).
Proof.
  intros Hl. unfold Bets.yes, Bets.no, Bets._get_binary_outcome, Bets.BINARY_N_SLOTS.
  split.
  - intros ->. simpl. unfold Bets.get_outcome. rewrite Hl. by split.
  - intros Hn. by destruct (Z.eqb_spec (Bets.outcomeSlotCount b) 2).
Qed.

End BetsFacts.

(** A list of one outcome next to one amount is kept, against two prices
    and two slots. *)
Lemma post_init_keeps_outcomes_witness :
  Bets.post_init lopsided_bet = Bets.Ok lopsided_bet
  ∧ Bets.outcomes lopsided_bet = Bets.OutcomesList ["Yes"].
Proof.
  split; [reflexivity |].
  exact (proj2 (proj1 (post_init_keeps_outcomes lopsided_bet lopsided_bet ["Yes"]
                         eq_refl eq_refl)) (or_introl eq_refl)).
Defined.

Lemma post_init_idempotent_witness :
  Bets.post_init (Bets.set_status sample_bet (Bets.StatusMember Bets.UNPROCESSED))
  = Bets.Ok (Bets.set_status sample_bet (Bets.StatusMember Bets.UNPROCESSED)).
Proof.
  exact (proj1 (post_init_idempotent sample_bet
           (Bets.set_status sample_bet (Bets.StatusMember Bets.UNPROCESSED)) eq_refl)).
Defined.

Lemma decode_encoded_round_trip_witness :
  Bets.decode_encoded (Bets.set_status sample_bet (Bets.StatusMember Bets.UNPROCESSED))
  = Bets.Ok (Bets.set_status sample_bet (Bets.StatusMember Bets.UNPROCESSED)).
Proof.
  exact (proj1 (decode_encoded_round_trip sample_bet
           (Bets.set_status sample_bet (Bets.StatusMember Bets.UNPROCESSED)) eq_refl)).
Defined.

Lemma get_outcome_index_witness :
  ∃ o, ["Yes"; "No"] !! 1%nat = Some o ∧ Bets.get_outcome sample_bet (-1) = Bets.Ok o.
Proof.
  apply (proj1 (proj2 (get_outcome_index sample_bet ["Yes"; "No"] (-1) eq_refl))).
  simpl. lia.
Defined.

Lemma yes_no_binary_witness :
  Bets.yes sample_bet = Bets.Ok "Yes" ∧ Bets.no sample_bet = Bets.Ok "No".
Proof.
  exact (proj1 (yes_no_binary sample_bet ["Yes"; "No"] eq_refl) eq_refl).
Defined.

(** * Properties of the trade-volume strategy *)

Section StrategyFacts.
Context {float : Type} (round1_str : float → string).
Implicit Types (kwargs : gmap string (Strategy.value float)).

Lemma check_missing_fields_unfold kwargs :
  Strategy.check_missing_fields kwargs =
    (if Strategy.is_None (kwargs !! "confidence") then ["confidence"] else [])
    ++ (if Strategy.is_None (kwargs !! "volume_per_confidence")
        then ["volume_per_confidence"] else []).
Proof.
  unfold Strategy.check_missing_fields. simpl.
  by destruct (Strategy.is_None (kwargs !! "confidence")),
    (Strategy.is_None (kwargs !! "volume_per_confidence")).
Qed.

(** [check_missing_fields] lists exactly the required fields that are
    absent or [None], in the order of [REQUIRED_FIELDS] and each at most
    once; it is empty exactly when both fields carry a value. *)
Theorem check_missing_fields_spec kwargs :
  (∀ field, field ∈ Strategy.check_missing_fields kwargs
            ↔ field ∈ Strategy.REQUIRED_FIELDS
              ∧ (kwargs !! field = None ∨ kwargs !! field = Some Strategy.VNone))
  ∧ Strategy.check_missing_fields kwargs `sublist_of` Strategy.REQUIRED_FIELDS
  ∧ (Strategy.check_missing_fields kwargs = []
     ↔ ∃ c v, kwargs !! "confidence" = Some c ∧ c ≠ Strategy.VNone
              ∧ kwargs !! "volume_per_confidence" = Some v ∧ v ≠ Strategy.VNone).
Proof.
  rewrite check_missing_fields_unfold. unfold Strategy.REQUIRED_FIELDS.
  assert (∀ o : option (Strategy.value float),
            Strategy.is_None o = true ↔ o = None ∨ o = Some Strategy.VNone) as Hnone.
  { intros [[] |]; simpl; split; try done; try (intros [? | ?]; done); auto. }
  assert (∀ o : option (Strategy.value float),
            Strategy.is_None o = false ↔ ∃ x, o = Some x ∧ x ≠ Strategy.VNone) as Hsome.
  { intros [[] |]; simpl; split; try done; try (intros _; by eexists);
      intros (x & [=] & Hx); by subst. }
  split; [| split].
  - intros field. rewrite elem_of_app. split.
    + intros [Hin | Hin].
      * destruct (Strategy.is_None (kwargs !! "confidence")) eqn:Hc;
          [| by apply elem_of_nil in Hin].
        apply list_elem_of_singleton in Hin as ->.
        split; [apply list_elem_of_here | by apply Hnone].
      * destruct (Strategy.is_None (kwargs !! "volume_per_confidence")) eqn:Hv;
          [| by apply elem_of_nil in Hin].
        apply list_elem_of_singleton in Hin as ->.
        split; [apply list_elem_of_further, list_elem_of_here | by apply Hnone].
    + intros [Hf Hn]. apply Hnone in Hn.
      apply elem_of_cons in Hf as [-> | Hf].
      * left. rewrite Hn. apply list_elem_of_here.
      * apply list_elem_of_singleton in Hf as ->. right. rewrite Hn.
        apply list_elem_of_here.
  - destruct (Strategy.is_None (kwargs !! "confidence")),
      (Strategy.is_None (kwargs !! "volume_per_confidence")); simpl.
    + done.
    + apply sublist_skip, sublist_cons, sublist_nil.
    + apply sublist_cons, sublist_skip, sublist_nil.
    + apply sublist_nil_l.
  - destruct (Strategy.is_None (kwargs !! "confidence")) eqn:Hc;
      destruct (Strategy.is_None (kwargs !! "volume_per_confidence")) eqn:Hv; simpl.
    + split; [done |]. intros (c & v & Hkc & Hcn & _).
      apply Hnone in Hc as [Hc | Hc]; congruence.
    + split; [done |]. intros (c & v & Hkc & Hcn & _).
      apply Hnone in Hc as [Hc | Hc]; congruence.
    + split; [done |]. intros (c & v & _ & _ & Hkv & Hvn).
      apply Hnone in Hv as [Hv | Hv]; congruence.
    + split; [intros _ | done].
      apply Hsome in Hc as (c & Hc & Hcn), Hv as (v & Hv & Hvn). by exists c, v.
Qed.

Lemma remove_irrelevant_fields_lookup kwargs (field : string) :
  field ∈ Strategy.REQUIRED_FIELDS →
  Strategy.remove_irrelevant_fields kwargs !! field = kwargs !! field.
Proof.
  intros Hf. unfold Strategy.remove_irrelevant_fields.
  destruct (kwargs !! field) as [v |] eqn:Hv.
  - by apply map_lookup_filter_Some.
  - apply map_lookup_filter_None. by left.
Qed.

Lemma remove_irrelevant_fields_keys kwargs :
  map_Forall (λ key _, key ∈ Strategy.REQUIRED_FIELDS)
    (Strategy.remove_irrelevant_fields kwargs).
Proof.
  intros key v Hk. unfold Strategy.remove_irrelevant_fields in Hk.
  by apply map_lookup_filter_Some in Hk as [_ Hk].
Qed.

(** The unpacked call after [remove_irrelevant_fields] never meets an
    unexpected keyword: it is decided by the two fields alone. *)
Lemma call_after_remove kwargs :
  Strategy.call_with_kwargs round1_str (Strategy.remove_irrelevant_fields kwargs) =
    match kwargs !! "confidence", kwargs !! "volume_per_confidence" with
    | Some c, Some v => Strategy.volume_based_on_confidence round1_str c v
    | _, _ => Strategy.Raised Strategy.RaisedTypeError
    end.
Proof.
  unfold Strategy.call_with_kwargs.
  destruct (decide _) as [_ | Hbad]; [| by destruct Hbad; apply remove_irrelevant_fields_keys].
  rewrite !remove_irrelevant_fields_lookup; [done | |];
    unfold Strategy.REQUIRED_FIELDS; set_solver.
Qed.

(** Only the two required fields count: two sets of keyword arguments that
    agree on [confidence] and on [volume_per_confidence] get the same
    answer from [run], whatever else they hold; in particular dropping the
    irrelevant fields first changes nothing. *)
Theorem run_ignores_other_fields kwargs (kwargs' : gmap string (Strategy.value float)) :
  kwargs !! "confidence" = kwargs' !! "confidence" →
  kwargs !! "volume_per_confidence" = kwargs' !! "volume_per_confidence" →
  Strategy.run round1_str kwargs = Strategy.run round1_str kwargs'.
Proof.
  intros Hc Hv. unfold Strategy.run.
  by rewrite !check_missing_fields_unfold, !call_after_remove, Hc, Hv.
Qed.

(** What [run] answers. With a required field absent or [None] it returns
    the single [error] naming the missing fields. With a number and a
    dictionary it looks the rounded confidence up: a [trade_volume] when
    the level is a key, the single [error] naming level and table when it
    is not. It never fails on the call's keywords; an exception comes only
    from a confidence that is no number ([TypeError]) or a table that is
    no dictionary ([AttributeError]). *)
Theorem run_answers kwargs :
  (Strategy.check_missing_fields kwargs ≠ [] →
     Strategy.run round1_str kwargs
     = Strategy.Ok {[ "error" := Strategy.ErrorTuple
                        (Strategy.RequiredNotProvided (Strategy.check_missing_fields kwargs)) ]})
  ∧ (∀ c level m,
       kwargs !! "confidence" = Some c →
       Strategy.confidence_level_of round1_str c = Strategy.Ok level →
       kwargs !! "volume_per_confidence" = Some (Strategy.VDict m) →
       Strategy.run round1_str kwargs
       = Strategy.Ok
           match m !! level with
           | Some trade_volume => {[ "trade_volume" := Strategy.Volume trade_volume ]}
           | None => {[ "error" := Strategy.ErrorTuple (Strategy.NoTradeVolume level m) ]}
           end)
  ∧ (∀ e, Strategy.run round1_str kwargs = Strategy.Raised e →
       ∃ c v, kwargs !! "confidence" = Some c
              ∧ kwargs !! "volume_per_confidence" = Some v
              ∧ ((e = Strategy.RaisedTypeError
                  ∧ Strategy.confidence_level_of round1_str c
                    = Strategy.Raised Strategy.RaisedTypeError)
                 ∨ (e = Strategy.RaisedAttributeError ∧ ∀ m, v ≠ Strategy.VDict m))).
Proof.
  unfold Strategy.run. rewrite check_missing_fields_unfold, call_after_remove.
  split; [| split].
  - intros Hm.
    by destruct (Strategy.is_None (kwargs !! "confidence")),
      (Strategy.is_None (kwargs !! "volume_per_confidence")).
  - intros c level m Hc Hl Hv. rewrite Hc, Hv.
    replace (Strategy.is_None (Some c)) with false
      by (by destruct c). simpl.
    unfold Strategy.volume_based_on_confidence. rewrite Hl.
    by destruct (m !! level).
  - intros e.
    destruct (kwargs !! "confidence") as [c |];
      destruct (kwargs !! "volume_per_confidence") as [v |];
      try (destruct c; simpl; discriminate); try (simpl; discriminate).
    destruct c, v; simpl; try discriminate;
      unfold Strategy.volume_based_on_confidence; simpl;
      try (destruct (_ !! _); discriminate);
      intros [= <-]; eexists _, _; (split; [reflexivity |]); (split; [reflexivity |]);
      first [ by left | right; split; [reflexivity | intros m; discriminate] ].
Qed.

End StrategyFacts.

Lemma run_ignores_other_fields_witness :
  Strategy.run (float := Z) pretty
    {[ "confidence" := Strategy.VInt 1; "volume_per_confidence" := Strategy.VDict {[ "1" := 50 ]};
       "token" := Strategy.VOther ]}
  = Strategy.run (float := Z) pretty
      {[ "confidence" := Strategy.VInt 1;
         "volume_per_confidence" := Strategy.VDict {[ "1" := 50 ]} ]}.
Proof.
  exact (run_ignores_other_fields (float := Z) pretty
           {[ "confidence" := Strategy.VInt 1;
              "volume_per_confidence" := Strategy.VDict {[ "1" := 50 ]};
              "token" := Strategy.VOther ]}
           {[ "confidence" := Strategy.VInt 1;
              "volume_per_confidence" := Strategy.VDict {[ "1" := 50 ]} ]}
           eq_refl eq_refl).
Defined.

Lemma run_answers_witness :
  Strategy.run (float := Z) pretty
    {[ "confidence" := Strategy.VInt 1;
       "volume_per_confidence" := Strategy.VDict {[ "1" := 50 ]} ]}
  = Strategy.Ok {[ "trade_volume" := Strategy.Volume 50 ]}.
Proof.
  exact (proj1 (proj2 (run_answers (float := Z) pretty
           {[ "confidence" := Strategy.VInt 1;
              "volume_per_confidence" := Strategy.VDict {[ "1" := 50 ]} ]}))
           (Strategy.VInt 1) "1" {[ "1" := 50 ]} eq_refl eq_refl eq_refl).
Defined.

(** * Properties of the decision-making rounds *)

Section Rounds.
Import DecisionMaker.

Lemma iff_of_bool_decide (P Q : Prop) `{Decision P, Decision Q} :
  bool_decide P = bool_decide Q → (P ↔ Q).
Proof. intros Heq. by rewrite <- (bool_decide_spec P), <- (bool_decide_spec Q), Heq. Qed.

Ltac by_table := refine (bool_decide_unpack _ _); vm_compute; exact I.

(** The class docstring and the class agree: the documented transition
    table, read with its round numbers, is the coded
    [transition_function] entry for entry; the documented initial round is
    [initial_round_cls]; the documented initial and final states are the
    coded sets. *)
Theorem docstring_matches_table :
  documented_table
  = map (λ '(r, ts), (r, map (λ '(e, r'), (e, Some r')) ts)) transition_function
  ∧ documented_initial_round = initial_round_cls
  ∧ (∀ r, r ∈ documented_initial_states ↔ r ∈ initial_states)
  ∧ (∀ r, r ∈ documented_final_states ↔ r ∈ final_states).
Proof.
  split; [reflexivity |]. split; [reflexivity |].
  split; intros r; refine (iff_of_bool_decide _ _ _); by destruct r.
Qed.

(** The table is a well-formed round graph: every round has exactly one
    entry and no entry lists an event twice; the final states are exactly
    the rounds without transitions; the initial round is an initial state
    and no initial state is final; [db_pre_conditions] is keyed by exactly
    the initial states and [db_post_conditions] by exactly the final
    states. *)
Theorem transition_function_well_formed :
  NoDup transition_function.*1
  ∧ (∀ r, r ∈ transition_function.*1)
  ∧ (∀ r ts, entry r transition_function = Some ts → NoDup ts.*1)
  ∧ (∀ r, r ∈ final_states ↔ entry r transition_function = Some [])
  ∧ initial_round_cls ∈ initial_states
  ∧ (∀ r, r ∈ initial_states → r ∉ final_states)
  ∧ (∀ r, r ∈ db_pre_conditions.*1 ↔ r ∈ initial_states)
  ∧ (∀ r, r ∈ db_post_conditions.*1 ↔ r ∈ final_states).
Proof.
  split; [by_table |]. split; [intros r; destruct r; by_table |].
  split.
  { intros r ts. destruct r; intros [= <-]; by_table. }
  split.
  { intros r. destruct r; split; intros Hr; first [ reflexivity | by_table | exfalso ];
      first [ discriminate Hr | by revert Hr; by_table ]. }
  split; [by_table |]. split.
  { intros r. destruct r; intros Hr; first [ by_table | exfalso; by revert Hr; by_table ]. }
  split; intros r; refine (iff_of_bool_decide _ _ _); by destruct r.
Qed.

(** How the rounds move. Without a majority every round that is not final
    is played again; a final round has no way out; a round timeout never
    ends the app; the only way into [BetPlacementRound] from another round
    is a decision received ([DecisionReceiveRound] on [DONE]); and from
    every round some sequence of at most two events ends in a final
    state. *)
Theorem rounds_progress :
  (∀ r, r ∉ final_states → step r NO_MAJORITY = Some r)
  ∧ (∀ r e, r ∈ final_states → step r e = None)
  ∧ (∀ r r', step r ROUND_TIMEOUT = Some r' → r' ∉ final_states)
  ∧ (∀ r e, step r e = Some BetPlacementRound →
       (r = DecisionReceiveRound ∧ e = DONE) ∨ r = BetPlacementRound)
  ∧ (∀ r, ∃ events f,
       (length events ≤ 2)%nat ∧ run r events = Some f ∧ f ∈ final_states).
Proof.
  split.
  { intros r Hr. destruct r; first [ reflexivity | exfalso; apply Hr; by_table ]. }
  split.
  { intros r e Hr. destruct r; first [ by destruct e | exfalso; by revert Hr; by_table ]. }
  split.
  { intros r r'. destruct r; intros [= <-]; by_table. }
  split.
  { intros r e. destruct r, e; intros [=]; auto. }
  intros r.
  exists match r with
         | SamplingRound => [NONE]
         | DecisionReceiveRound => [DONE; DONE]
         | HandleFailedTxRound => [NO_OP; DONE]
         | FinishedDecisionMakerRound | FinishedWithoutDecisionRound
         | FinishedWithoutRedeemingRound | RefillRequiredRound | ImpossibleRound => []
         | _ => [DONE]
         end.
  destruct r; eexists; (split; [simpl; lia |]); (split; [reflexivity | by_table]).
Qed.

End Rounds.
